(** * Dulien orchestrator: decision engine, task executor and snapshot builder

    A shallow embedding of [orchestrator.py], [claude_agent.py],
    [github_client.py] and the constants of [config.py], together with the
    properties of the decision-and-execution core.

    Conventions.
    - Python [int] is [Z]; Python [str] is [string]; a Python [set] is a
      [gset]; a Python [dict] whose keys are not fixed in advance (an action,
      the oracle's decision) is an insertion-ordered association list.
    - Methods lose their leading underscore: [_decide_actions] is
      [decide_actions].
    - Code that mutates [self.current_run_actions] and may raise lives in the
      monad [M]: the tracker is threaded through, and a raised exception
      leaves the tracker as it was when the exception was raised. *)

From stdpp Require Import gmap strings list.
From Stdlib Require Import ZArith Lia DecimalString Sorted Ascii.

Set Default Proof Using "Type".
Set Warnings "-register-all,-clear-no-such-hyp".

(** ** Values exchanged as JSON *)

(** What [json.loads] produces.  A float with an integral value compares and
    hashes like the integer, so it is represented by [JInt]; other floats are
    not represented. *)
Inductive json : Type :=
| JNull
| JBool (b : bool)
| JInt (n : Z)
| JStr (s : string)
| JArr (l : list json)
| JObj (kv : list (string * json)).

(** A Python [dict] with string keys, in insertion order, keys unique. *)
Definition dict : Type := list (string * json).

Fixpoint dict_get (k : string) (d : dict) : option json :=
  match d with
  | [] => None
  | (k', v) :: d' => if String.eqb k k' then Some v else dict_get k d'
  end.

(** [d[k] = v]: overwrite in place, or append a new key at the end. *)
Fixpoint dict_set (k : string) (v : json) (d : dict) : dict :=
  match d with
  | [] => [(k, v)]
  | (k', v') :: d' =>
      if String.eqb k k' then (k', v) :: d' else (k', v') :: dict_set k v d'
  end.

(** [x == s] for a [str] [s] and [x == n] for an [int] [n].  In Python
    [True == 1] and [False == 0]. *)
Definition eq_str (s : string) (x : json) : bool :=
  match x with JStr s' => String.eqb s s' | _ => false end.

Definition eq_int (n : Z) (x : json) : bool :=
  match x with
  | JInt m => (n =? m)%Z
  | JBool b => (n =? Z.b2z b)%Z
  | _ => false
  end.

(** [l[:stop]] on a list: a negative [stop] counts from the end. *)
Definition slice_to {A : Type} (stop : Z) (l : list A) : list A :=
  if (0 <=? stop)%Z then take (Z.to_nat stop) l
  else take (length l - Z.to_nat (- stop)) l.

(** [str(n)] for an [int]. *)
Definition str_of_int (n : Z) : string := NilZero.string_of_int (Z.to_int n).

(** ** Exceptions and the dedup tracker *)

Inductive exn : Type :=
| KeyError
| TypeError
| AttributeError
| OracleFailure.

Inductive result (A : Type) : Type :=
| Ok (a : A)
| Raised (e : exn).
Arguments Ok {A} a.
Arguments Raised {A} e.

(** The members of a tuple used as a set element must be hashable; [True]
    and [1] are the same member. *)
Inductive hashable : Type :=
| HNone
| HInt (n : Z)
| HStr (s : string).

#[global] Instance hashable_eq_dec : EqDecision hashable.
Proof. solve_decision. Defined.

#[global] Instance hashable_countable : Countable hashable.
Proof.
  refine (inj_countable'
    (λ h, match h with
          | HNone => inl ()
          | HInt n => inr (inl n)
          | HStr s => inr (inr s)
          end)
    (λ x, match x with
          | inl _ => HNone
          | inr (inl n) => HInt n
          | inr (inr s) => HStr s
          end) _).
  by intros [].
Defined.

Definition to_hashable (x : json) : option hashable :=
  match x with
  | JNull => Some HNone
  | JBool b => Some (HInt (Z.b2z b))
  | JInt n => Some (HInt n)
  | JStr s => Some (HStr s)
  | JArr _ | JObj _ => None
  end.

(** [(action["type"], action["repo"], action["number"])] *)
Definition ActionKey : Type := hashable * hashable * hashable.

Definition mk_key (ty repo : string) (number : Z) : ActionKey :=
  (HStr ty, HStr repo, HInt number).

(** [self.current_run_actions] *)
Abbreviation Tracker := (gset ActionKey).

Definition M (A : Type) : Type := Tracker → result A * Tracker.

Definition ret {A : Type} (a : A) : M A := λ tr, (Ok a, tr).

Definition raise {A : Type} (e : exn) : M A := λ tr, (Raised e, tr).

Definition bind {A B : Type} (m : M A) (k : A → M B) : M B :=
  λ tr, match m tr with
        | (Ok a, tr') => k a tr'
        | (Raised e, tr') => (Raised e, tr')
        end.

(** [try: m except Exception: h] *)
Definition try_except {A : Type} (m : M A) (h : M A) : M A :=
  λ tr, match m tr with
        | (Ok a, tr') => (Ok a, tr')
        | (Raised _, tr') => h tr'
        end.

Notation "'let*' x ':=' m 'in' k" := (bind m (λ x, k))
  (at level 10, x name, m at level 100, k at level 200, only parsing).

(** [d[k]] on a value coming from JSON: [TypeError] unless [d] is a dict,
    [KeyError] when the key is missing. *)
Definition subscript (d : json) (k : string) : M json :=
  match d with
  | JObj kv =>
      match dict_get k kv with
      | Some v => ret v
      | None => raise KeyError
      end
  | _ => raise TypeError
  end.

(** The key tuple of an action; building it looks up the three fields, and
    testing it against the set hashes them. *)
Definition action_key (action : dict) : option ActionKey :=
  match dict_get "type" action, dict_get "repo" action,
        dict_get "number" action with
  | Some t, Some r, Some n =>
      match to_hashable t, to_hashable r, to_hashable n with
      | Some ht, Some hr, Some hn => Some (ht, hr, hn)
      | _, _, _ => None
      end
  | _, _, _ => None
  end.

(** [_can_process_action] *)
Definition can_process_action (action : dict) : M bool :=
  let* t := subscript (JObj action) "type" in
  let* r := subscript (JObj action) "repo" in
  let* n := subscript (JObj action) "number" in
  match to_hashable t, to_hashable r, to_hashable n with
  | Some ht, Some hr, Some hn =>
      λ tr,
        let action_key := (ht, hr, hn) in
        if decide (action_key ∈ tr) then (Ok false, tr)
        else (Ok true, {[action_key]} ∪ tr)
  | _, _, _ => raise TypeError
  end.

(** ** The snapshot *)

(** An item as [gh] returns it and [list_prs] / [list_issues] complete it.
    [gh] is asked for [number] and [title] (and [body] for issues), so these
    keys are present and [item.get(k, "")] is [item[k]]; a pull request has
    no body and none is read. *)
Record Item : Type := mkItem {
  it_repo : string;
  it_number : Z;
  it_title : string;
  it_body : string;
  it_has_epic_label : bool;
  it_has_processing_label : bool
}.

(** The state built by [_scan_github_state]; the counts are the lengths of
    the lists, and the timestamp plays no part in a decision. *)
Record State : Type := mkState {
  prs_items : list Item;
  tasks_open_items : list Item;
  tasks_processing_items : list Item;
  epics_items : list Item
}.

(** ** The deterministic fallback *)

(** The dict handed to [_can_process_action] by the fallback. *)
Definition probe (ty : string) (it : Item) : dict :=
  [("type", JStr ty); ("repo", JStr (it_repo it));
   ("number", JInt (it_number it))].

Definition review_pr_action (pr : Item) : dict :=
  [("type", JStr "review_pr"); ("repo", JStr (it_repo pr));
   ("number", JInt (it_number pr)); ("title", JStr (it_title pr));
   ("priority", JInt 1)].

Definition implement_task_action (task : Item) : dict :=
  [("type", JStr "implement_task"); ("repo", JStr (it_repo task));
   ("number", JInt (it_number task)); ("title", JStr (it_title task));
   ("body", JStr (it_body task)); ("priority", JInt 2)].

Definition decompose_epic_action (epic : Item) : dict :=
  [("type", JStr "decompose_epic"); ("repo", JStr (it_repo epic));
   ("number", JInt (it_number epic)); ("title", JStr (it_title epic));
   ("body", JStr (it_body epic)); ("priority", JInt 3)].

(** The outcome of one of the three [for] loops: it either ran to its end or
    executed [return actions]. *)
Inductive loop_exit : Type :=
| Fallthrough (actions : list dict)
| Return (actions : list dict).

(** One [for item in items: if self._can_process_action(...): ...] loop of
    [_simple_decision_logic], over the already sliced list. *)
Fixpoint scan_tier (ty : string) (mk : Item → dict) (max_actions : Z)
    (items : list Item) (actions : list dict) : M loop_exit :=
  match items with
  | [] => ret (Fallthrough actions)
  | it :: rest =>
      let* ok := can_process_action (probe ty it) in
      if ok then
        let actions := actions ++ [mk it] in
        if (max_actions <=? Z.of_nat (length actions))%Z
        then ret (Return actions)
        else scan_tier ty mk max_actions rest actions
      else scan_tier ty mk max_actions rest actions
  end.

(** [_simple_decision_logic] *)
Definition simple_decision_logic (max_actions : Z) (state : State)
    : M (list dict) :=
  let* r1 := scan_tier "review_pr" review_pr_action max_actions
               (slice_to max_actions (prs_items state)) [] in
  match r1 with
  | Return actions => ret actions
  | Fallthrough actions =>
      let* r2 := scan_tier "implement_task" implement_task_action max_actions
                   (slice_to (max_actions - Z.of_nat (length actions))
                      (tasks_open_items state)) actions in
      match r2 with
      | Return actions => ret actions
      | Fallthrough actions =>
          let* r3 := scan_tier "decompose_epic" decompose_epic_action
                       max_actions
                       (slice_to (max_actions - Z.of_nat (length actions))
                          (epics_items state)) actions in
          match r3 with
          | Return actions => ret actions
          | Fallthrough actions => ret actions
          end
      end
  end.

(** ** The oracle path *)

(** The inner [for item in items:] loop of [_enrich_action]: the first item
    with [item["repo"] == action["repo"] and item["number"] ==
    action["number"]].  [action["repo"]] is read at every item and
    [action["number"]] only when the repository matches. *)
Fixpoint find_item (action : json) (items : list Item) : M (option Item) :=
  match items with
  | [] => ret None
  | it :: rest =>
      let* r := subscript action "repo" in
      if eq_str (it_repo it) r then
        let* n := subscript action "number" in
        if eq_int (it_number it) n then ret (Some it)
        else find_item action rest
      else find_item action rest
  end.

(** [_enrich_action]: the action dict is updated in place and returned, or
    [None] is returned. *)
Definition enrich_action (action : json) (state : State) : M (option dict) :=
  let* ty := subscript action "type" in
  match action with
  | JObj d =>
      if eq_str "review_pr" ty then
        let* found := find_item action (prs_items state) in
        match found with
        | Some pr => ret (Some (dict_set "title" (JStr (it_title pr)) d))
        | None => ret None
        end
      else if eq_str "implement_task" ty then
        let* found := find_item action (tasks_open_items state) in
        match found with
        | Some task =>
            ret (Some (dict_set "body" (JStr (it_body task))
                         (dict_set "title" (JStr (it_title task)) d)))
        | None => ret None
        end
      else if eq_str "decompose_epic" ty then
        let* found := find_item action (epics_items state) in
        match found with
        | Some epic =>
            ret (Some (dict_set "body" (JStr (it_body epic))
                         (dict_set "title" (JStr (it_title epic)) d)))
        | None => ret None
        end
      else if eq_str "monitor_task" ty then
        let* found := find_item action (tasks_processing_items state) in
        match found with
        | Some task => ret (Some (dict_set "title" (JStr (it_title task)) d))
        | None => ret None
        end
      else ret None
  | _ => raise TypeError
  end.

(** What the call of the oracle produces: [generate] raises (unreachable,
    response budget exceeded), or it answers a text that [json.loads]
    rejects, or a text that parses to a value. *)
Inductive oracle_reply : Type :=
| GenerateRaises
| NotJson
| Parsed (decision : json).

(** [decision.get(k, default)] *)
Definition get_default (decision : json) (k : string) (dflt : json)
    : M json :=
  match decision with
  | JObj kv => ret (default dflt (dict_get k kv))
  | _ => raise AttributeError
  end.

(** [len(x)] *)
Definition py_len (x : json) : M Z :=
  match x with
  | JStr s => ret (Z.of_nat (String.length s))
  | JArr l => ret (Z.of_nat (length l))
  | JObj kv => ret (Z.of_nat (length kv))
  | _ => raise TypeError
  end.

(** The elements visited by [for action in x[:stop]]: those of a list, the
    characters of a string; anything else cannot be sliced. *)
Definition sliced_elements (stop : Z) (x : json) : M (list json) :=
  match x with
  | JArr l => ret (slice_to stop l)
  | JStr s =>
      ret ((λ c, JStr (String c EmptyString))
             <$> slice_to stop (String.list_ascii_of_string s))
  | _ => raise TypeError
  end.

(** The loop [for action in actions[:max]: enriched = ...; if enriched and
    self._can_process_action(enriched): enriched_actions.append(enriched)]. *)
Fixpoint enrich_loop (state : State) (actions : list json)
    (enriched_actions : list dict) : M (list dict) :=
  match actions with
  | [] => ret enriched_actions
  | action :: rest =>
      let* enriched := enrich_action action state in
      match enriched with
      | Some e =>
          let* ok := can_process_action e in
          if ok then enrich_loop state rest (enriched_actions ++ [e])
          else enrich_loop state rest enriched_actions
      | None => enrich_loop state rest enriched_actions
      end
  end.

(** The body of the [try] block of [_decide_actions]. *)
Definition consult_oracle (reply : oracle_reply) (max_actions : Z)
    (state : State) : M (list dict) :=
  match reply with
  | GenerateRaises | NotJson => raise OracleFailure
  | Parsed decision =>
      let* actions := get_default decision "actions" (JArr []) in
      let* reasoning := get_default decision "reasoning" (JStr "") in
      let* n := py_len actions in
      let* sliced := sliced_elements max_actions actions in
      enrich_loop state sliced []
  end.

(** [_decide_actions].  [ollama] is [None] when no client is available and
    otherwise holds what the single call of the oracle produces.  The prompt
    is built from the state before the [try] block and only feeds the
    oracle. *)
Definition decide_actions (ollama : option oracle_reply) (max_actions : Z)
    (state : State) : M (list dict) :=
  match ollama with
  | None => simple_decision_logic max_actions state
  | Some reply =>
      try_except (consult_oracle reply max_actions state)
                 (simple_decision_logic max_actions state)
  end.

(** ** The snapshot builder *)

(** What the [gh] queries of [GitHubClient] answer during one scan:
    [list_prs()], [list_issues(labels=["agent:*"])] and
    [list_issues(labels=["type:epic"])]. *)
Record GitHubStore : Type := mkStore {
  open_prs : list Item;
  agent_issues : list Item;
  epic_issues : list Item
}.

Definition list_prs (gh : GitHubStore) : list Item := open_prs gh.

Definition get_epics (gh : GitHubStore) : list Item := epic_issues gh.

Definition get_tasks (gh : GitHubStore) : list Item :=
  filter (λ t, it_has_epic_label t = false) (agent_issues gh).

(** [needle in hay] for two strings. *)
Fixpoint contains (needle hay : string) : bool :=
  String.prefix needle hay ||
  match hay with
  | EmptyString => false
  | String _ hay' => contains needle hay'
  end.

(** The loop of [epic_has_tasks]. *)
Fixpoint references_epic (epic_ref epic_repo : string) (tasks : list Item)
    : bool :=
  match tasks with
  | [] => false
  | task :: rest =>
      if String.eqb (it_repo task) epic_repo then
        if contains epic_ref (it_body task) then true
        else if contains epic_ref (it_title task) then true
        else references_epic epic_ref epic_repo rest
      else references_epic epic_ref epic_repo rest
  end.

Definition epic_has_tasks (gh : GitHubStore) (epic : Item) : bool :=
  let epic_ref := ("#" ++ str_of_int (it_number epic))%string in
  references_epic epic_ref (it_repo epic) (get_tasks gh).

(** The loop over [all_tasks] of [_scan_github_state]; the result is
    [(open_tasks, processing_tasks)]. *)
Fixpoint split_tasks (floor : Z) (all_tasks open_tasks processing_tasks
    : list Item) : list Item * list Item :=
  match all_tasks with
  | [] => (open_tasks, processing_tasks)
  | task :: rest =>
      if (it_number task <? floor)%Z then
        split_tasks floor rest open_tasks processing_tasks
      else if it_has_processing_label task then
        split_tasks floor rest open_tasks (processing_tasks ++ [task])
      else
        split_tasks floor rest (open_tasks ++ [task]) processing_tasks
  end.

(** The loop over [epics] of [_scan_github_state]. *)
Fixpoint taskless_epics (gh : GitHubStore) (epics epics_without_tasks
    : list Item) : list Item :=
  match epics with
  | [] => epics_without_tasks
  | epic :: rest =>
      if epic_has_tasks gh epic then
        taskless_epics gh rest epics_without_tasks
      else taskless_epics gh rest (epics_without_tasks ++ [epic])
  end.

(** [_scan_github_state], with [floor] standing for
    [TASK_FILTERS["ignore_old_tasks_before_number"]]. *)
Definition scan_github_state (floor : Z) (gh : GitHubStore) : State :=
  let prs := list_prs gh in
  let all_tasks := get_tasks gh in
  let '(open_tasks, processing_tasks) := split_tasks floor all_tasks [] [] in
  let epics := get_epics gh in
  let epics_without_tasks := taskless_epics gh epics [] in
  mkState prs open_tasks processing_tasks epics_without_tasks.

(** ** The Claude agent *)

(** The attributes set by [ClaudeAgent.__init__]. *)
Record ClaudeAgent : Type := mkAgent {
  timeout : Z;
  retry_attempts : Z;
  retry_delay : Z
}.

(** What [json.loads(result.stdout)] does with a captured output: it
    returns the decoded value, raises [json.JSONDecodeError], or raises
    another exception (a [RecursionError] on deeply nested brackets) whose
    [str] is [message]. *)
Inductive loads_outcome : Type :=
| Loaded (output : json)
| DecodeError
| LoadsRaises (message : string).

(** What one call [subprocess.run(cmd, ..., timeout=timeout)] does: it
    completes after [elapsed] seconds with a return code, the captured
    output (with what [json.loads] makes of it) and the error stream; or it
    raises [TimeoutExpired] once [timeout] seconds have passed; or something
    else raises. *)
Inductive attempt_outcome : Type :=
| Completed (elapsed : Z) (returncode : Z) (stdout : string)
    (parsed : loads_outcome) (stderr : string)
| TimeoutExpired
| OtherError (elapsed : Z) (message : string).

(** What a worker does to the outside world, in order.  The time taken by a
    [gh] label call is not modelled. *)
Inductive event : Type :=
| RunClaude (attempt : Z) (seconds : Z)
| Sleep (seconds : Z)
| AddLabel (label : string)
| RemoveLabel (label : string).

Definition seconds_of (e : event) : Z :=
  match e with
  | RunClaude _ s => s
  | Sleep s => s
  | AddLabel _ | RemoveLabel _ => 0
  end.

Definition elapsed_time (trace : list event) : Z :=
  foldr (λ e t, seconds_of e + t)%Z 0%Z trace.

Definition is_run (e : event) : bool :=
  match e with RunClaude _ _ => true | _ => false end.

(** The number of calls of the executor in a trace. *)
Definition runs (trace : list event) : nat :=
  length (List.filter is_run trace).

(** [range(n)] *)
Definition py_range (n : Z) : list Z := Z.of_nat <$> seq 0 (Z.to_nat n).

(** [json.loads(result.stdout) if result.stdout else {}], with the
    [{"raw_output": ...}] of the [except json.JSONDecodeError] branch: the
    value bound to [output], or the message of an exception that this
    [except] clause does not catch. *)
Definition parse_output (stdout : string) (parsed : loads_outcome)
    : json + string :=
  if String.eqb stdout "" then inl (JObj [])
  else match parsed with
       | Loaded output => inl output
       | DecodeError => inl (JObj [("raw_output", JStr stdout)])
       | LoadsRaises message => inr message
       end.

Definition success_result (output : json) (attempt : Z) : dict :=
  [("status", JStr "success"); ("output", output);
   ("attempt", JInt (attempt + 1))].

Definition failed_result (error_msg : string) (output : json) (n : Z) : dict :=
  [("status", JStr "failed"); ("error", JStr error_msg); ("output", output);
   ("attempts", JInt n)].

Definition timeout_result (timeout : Z) (attempt : Z) : dict :=
  [("status", JStr "failed");
   ("error", JStr ("Command timed out after " ++ str_of_int timeout
                   ++ " seconds"));
   ("attempts", JInt (attempt + 1))].

Definition exception_result (message : string) (n : Z) : dict :=
  [("status", JStr "failed"); ("error", JStr message); ("attempts", JInt n)].

Definition exhausted_result (n : Z) : dict :=
  [("status", JStr "failed"); ("error", JStr "Max retry attempts reached");
   ("attempts", JInt n)].

(** The loop [for attempt in range(self.retry_attempts):] of
    [_run_claude_command], over the attempts still to make; [exec attempt] is
    what the call of attempt number [attempt] does, and [trace] collects the
    calls and sleeps made so far.  An exception of [json.loads] other than
    [JSONDecodeError] is raised inside the outer [try] and handled by its
    [except Exception] clause, whatever the return code.  The delay
    [retry_delay self] is taken not to be negative ([time.sleep] rejects a
    negative delay; the configuration sets 30). *)
Fixpoint attempts_loop (self : ClaudeAgent) (timeout : Z)
    (exec : Z → attempt_outcome) (attempts : list Z) (trace : list event)
    : dict * list event :=
  match attempts with
  | [] => (exhausted_result (retry_attempts self), trace)
  | attempt :: rest =>
      match exec attempt with
      | Completed elapsed returncode stdout parsed stderr =>
          let trace := trace ++ [RunClaude attempt elapsed] in
          match parse_output stdout parsed with
          | inl output =>
              if (returncode =? 0)%Z then
                (success_result output attempt, trace)
              else
                let error_msg :=
                  if String.eqb stderr "" then "Unknown error"%string
                  else stderr in
                if (attempt <? retry_attempts self - 1)%Z then
                  attempts_loop self timeout exec rest
                    (trace ++ [Sleep (retry_delay self)])
                else
                  (failed_result error_msg output (retry_attempts self),
                   trace)
          | inr message =>
              if (attempt <? retry_attempts self - 1)%Z then
                attempts_loop self timeout exec rest
                  (trace ++ [Sleep (retry_delay self)])
              else (exception_result message (retry_attempts self), trace)
          end
      | TimeoutExpired =>
          (timeout_result timeout attempt,
           trace ++ [RunClaude attempt timeout])
      | OtherError elapsed message =>
          let trace := trace ++ [RunClaude attempt elapsed] in
          if (attempt <? retry_attempts self - 1)%Z then
            attempts_loop self timeout exec rest
              (trace ++ [Sleep (retry_delay self)])
          else (exception_result message (retry_attempts self), trace)
      end
  end.

(** [_run_claude_command(prompt, action, timeout)]; the prompt and the
    action only feed the command line, whose behaviour is [exec]. *)
Definition run_claude_command (self : ClaudeAgent) (timeout_arg : option Z)
    (exec : Z → attempt_outcome) : dict * list event :=
  let timeout := default (timeout self) timeout_arg in
  attempts_loop self timeout exec (py_range (retry_attempts self)) [].

(** [result["status"] == "success"] *)
Definition is_success (result : dict) : bool :=
  match dict_get "status" result with
  | Some status => eq_str "success" status
  | None => false
  end.

(** [_implement_task]: the label calls are made around the retry loop. *)
Definition implement_task (self : ClaudeAgent) (exec : Z → attempt_outcome)
    : dict * list event :=
  let '(result, trace) := run_claude_command self None exec in
  if is_success result then
    (result, [AddLabel "processing"] ++ trace
             ++ [AddLabel "status:review-requested"])
  else
    (result, [AddLabel "processing"] ++ trace ++ [RemoveLabel "processing"]).

(** [", ".join(parts)] *)
Fixpoint join_comma (parts : list string) : string :=
  match parts with
  | [] => ""
  | [part] => part
  | part :: rest => part ++ ", " ++ join_comma rest
  end.

(** The hexadecimal digit of [n < 16]. *)
Definition hex_digit (n : nat) : string :=
  String.substring n 1 "0123456789abcdef".

(** What [repr] writes for the character [c] of a string put between
    [quote]s: a backslash before a backslash and before the quote, the
    escapes n, r and t for a line feed, a carriage return and a tab, the
    escape x with two hexadecimal digits for another control character; a
    character above 127 is kept as it is. *)
Definition repr_char (quote : ascii) (c : ascii) : string :=
  let n := nat_of_ascii c in
  let backslash := ascii_of_nat 92 in
  if Ascii.eqb c backslash then String backslash (String backslash "")
  else if Ascii.eqb c quote then String backslash (String quote "")
  else if n =? 10 then String backslash "n"
  else if n =? 13 then String backslash "r"
  else if n =? 9 then String backslash "t"
  else if (n <? 32) || (n =? 127) then
    String backslash ("x" ++ hex_digit (n / 16) ++ hex_digit (n mod 16))
  else String c "".

(** [repr(s)] of a string: between double quotes when it holds a single
    quote and no double quote, between single quotes otherwise. *)
Definition repr_str (s : string) : string :=
  let chars := String.list_ascii_of_string s in
  let single := "'"%char in
  let double := ascii_of_nat 34 in
  let quote :=
    if existsb (Ascii.eqb single) chars
       && negb (existsb (Ascii.eqb double) chars)
    then double else single in
  String quote
    (String.concat "" (List.map (repr_char quote) chars) ++ String quote "").

(** [repr(x)] of a decoded JSON value. *)
Fixpoint py_repr (x : json) : string :=
  match x with
  | JNull => "None"
  | JBool true => "True"
  | JBool false => "False"
  | JInt n => str_of_int n
  | JStr s => repr_str s
  | JArr l => "[" ++ join_comma (List.map py_repr l) ++ "]"
  | JObj kv =>
      "{" ++ join_comma
               (List.map (λ p : string * json,
                            (repr_str (fst p) ++ ": " ++ py_repr (snd p))
                              %string)
                         kv)
          ++ "}"
  end.

(** [f"{x}"], that is [str(x)]: a string is itself. *)
Definition py_str (x : json) : string :=
  match x with
  | JStr s => s
  | _ => py_repr x
  end.

(** [execute_task].  [None] stands for the [KeyError] that a missing type,
    repo or number raises in the worker.  A type that is none of the four
    strings, a string or not, gets the failed result of the [else] branch. *)
Definition execute_task (self : ClaudeAgent) (exec : Z → attempt_outcome)
    (action : dict) : option (dict * list event) :=
  match dict_get "type" action, dict_get "repo" action,
        dict_get "number" action with
  | Some action_type, Some _, Some _ =>
      if eq_str "review_pr" action_type then
        Some (run_claude_command self None exec)
      else if eq_str "implement_task" action_type then
        Some (implement_task self exec)
      else if eq_str "decompose_epic" action_type then
        Some (run_claude_command self None exec)
      else if eq_str "monitor_task" action_type then
        Some (run_claude_command self (Some 120%Z) exec)
      else
        Some ([("status", JStr "failed");
               ("error",
                JStr ("Unknown action type: " ++ py_str action_type))], [])
  | _, _, _ => None
  end.

(** ** The task executor of the orchestrator *)

(** A worker thread of [_execute_actions], all of them started at time 0:
    the time at which it ends, and the result it appends to the shared list
    just before ([None] when it raised instead). *)
Record Thread : Type := mkThread {
  finish : Z;
  appended : option dict
}.

(** [execute_with_result(action, result_list)] as a thread. *)
Definition execute_with_result (self : ClaudeAgent)
    (exec : Z → attempt_outcome) (action : dict) : Thread :=
  match execute_task self exec action with
  | Some (result, trace) =>
      mkThread (elapsed_time trace)
        (Some (dict_set "action" (JObj action) result))
  | None => mkThread 0 None
  end.

(** [thread.join(timeout=timeout)] called at time [now]: the time at which
    it returns. *)
Definition join (timeout : Z) (th : Thread) (now : Z) : Z :=
  if (finish th <=? now)%Z then now
  else Z.min (finish th) (now + Z.max 0 timeout).

(** [for thread in threads: thread.join(timeout=timeout)] *)
Fixpoint join_all (timeout : Z) (threads : list Thread) (now : Z) : Z :=
  match threads with
  | [] => now
  | th :: rest => join_all timeout rest (join timeout th now)
  end.

(** The threads in the order in which they end; threads ending at the same
    time are taken in the order in which they were started. *)
Fixpoint insert_thread (th : Thread) (l : list Thread) : list Thread :=
  match l with
  | [] => [th]
  | x :: l' =>
      if (finish th <=? finish x)%Z then th :: x :: l'
      else x :: insert_thread th l'
  end.

Definition completion_order (threads : list Thread) : list Thread :=
  foldr insert_thread [] threads.

(** The content at time [t] of the list object [results] that every worker
    appends to: the results of the threads ended by then. *)
Definition results_at (threads : list Thread) (t : Z) : list dict :=
  omap appended
    (List.filter (λ th, (finish th <=? t)%Z) (completion_order threads)).

(** A run of [_execute_actions]: the threads it started, and the time at
    which it returns the list object [results], which the threads still
    alive keep appending to. *)
Record Execution : Type := mkExecution {
  threads : list Thread;
  returned_at : Z
}.

(** [_execute_actions], [execs i] being the behaviour of the executor for
    the [i]-th action.  With no action it returns a fresh empty list at
    once. *)
Definition execute_actions (self : ClaudeAgent) (action_timeout : Z)
    (execs : nat → Z → attempt_outcome) (actions : list dict) : Execution :=
  let threads :=
    imap (λ i action, execute_with_result self (execs i) action) actions in
  mkExecution threads (join_all action_timeout threads 0).

(** What a reader of the returned list sees at time [t]. *)
Definition returned_list_at (e : Execution) (t : Z) : list dict :=
  results_at (threads e) t.

(** ** The GitHub client *)

(** An issue or pull request as [gh ... list --json ...] prints it, its
    labels given by their names; a pull request is printed without body. *)
Record GhItem : Type := mkGhItem {
  gh_number : Z;
  gh_title : string;
  gh_body : string;
  gh_labels : list string
}.

(** What a [gh] listing answers for each repository: the parsed items, or
    [None] when the return code is not 0, the output is empty, or the
    output is not JSON; the repository is then skipped. *)
Definition gh_answer : Type := string → option (list GhItem).

(** [self.repos] *)
Definition repos : list string :=
  ["webapp"; "infrastructure"; "tenant-api"; "referential"].

(** A pull request completed by [pr["repo"] = repo]. *)
Definition pr_item (repo : string) (pr : GhItem) : Item :=
  mkItem repo (gh_number pr) (gh_title pr) "" false false.

(** [GitHubClient.list_prs], from what [gh pr list] answers. *)
Definition list_prs_from (answer : gh_answer) : list Item :=
  flat_map (λ repo,
    match answer repo with
    | Some prs => pr_item repo <$> prs
    | None => []
    end) repos.

(** [label_filter.replace("*", "")] *)
Fixpoint remove_stars (s : string) : string :=
  match s with
  | EmptyString => EmptyString
  | String c s' =>
      if Ascii.eqb c "*"%char then remove_stars s' else String c (remove_stars s')
  end.

(** One turn of the loop [for label_filter in labels:] of [list_issues]: the
    issue is kept for this filter. *)
Definition label_matches (label_filter : string) (issue_labels : list string)
    : bool :=
  if contains "*" label_filter then
    existsb (String.prefix (remove_stars label_filter)) issue_labels
  else existsb (String.eqb label_filter) issue_labels.

(** The filtering after retrieval: the issue has at least one label that a
    filter matches. *)
Definition keep_issue (labels : list string) (issue : GhItem) : bool :=
  existsb (λ label_filter, label_matches label_filter (gh_labels issue)) labels.

(** An issue completed with its repository and the flags read off its
    labels ([agent_label], which nothing reads, is left out). *)
Definition issue_item (repo : string) (issue : GhItem) : Item :=
  mkItem repo (gh_number issue) (gh_title issue) (gh_body issue)
    (existsb (String.eqb "type:epic") (gh_labels issue))
    (existsb (String.eqb "processing") (gh_labels issue)).

(** [GitHubClient.list_issues(labels)], from what [gh issue list] answers;
    no filter is [[]]. *)
Definition list_issues (labels : list string) (answer : gh_answer)
    : list Item :=
  flat_map (λ repo,
    match answer repo with
    | Some issues =>
        issue_item repo
          <$> match labels with
              | [] => issues
              | _ => List.filter (keep_issue labels) issues
              end
    | None => []
    end) repos.

(** The store seen through the client: [list_prs()],
    [list_issues(labels=["agent:*"])] and
    [list_issues(labels=["type:epic"])]. *)
Definition github_store (prs_answer agent_answer epic_answer : gh_answer)
    : GitHubStore :=
  mkStore (list_prs_from prs_answer)
    (list_issues ["agent:*"] agent_answer)
    (list_issues ["type:epic"] epic_answer).

(** ** One cycle *)

(** What [run_cycle] reports: idle, or completed with the list returned by
    [_execute_actions]; the duration is left out. *)
Inductive cycle_result : Type :=
| Idle
| Ran (actions_executed : Execution).

(** [run_cycle], the agent and the join both using [action_timeout]. *)
Definition run_cycle (floor max_actions action_timeout : Z)
    (self : ClaudeAgent) (gh : GitHubStore) (ollama : option oracle_reply)
    (execs : nat → Z → attempt_outcome) : M cycle_result :=
  let github_state := scan_github_state floor gh in
  let* actions := decide_actions ollama max_actions github_state in
  match actions with
  | [] => ret Idle
  | _ => ret (Ran (execute_actions self action_timeout execs actions))
  end.

(** ** Configuration constants of [config.py] *)

Definition max_parallel_actions : Z := 3.
Definition action_timeout : Z := 600.
Definition config_retry_attempts : Z := 2.
Definition config_retry_delay : Z := 30.
Definition ignore_old_tasks_before_number : Z := 50.

(** [ClaudeAgent()] *)
Definition claude : ClaudeAgent :=
  mkAgent action_timeout config_retry_attempts config_retry_delay.

(** ** Sample data *)

Definition pr12 : Item := mkItem "webapp" 12 "Add login" "" false false.
Definition pr13 : Item := mkItem "webapp" 13 "Fix logout" "" false false.
Definition task3 : Item := mkItem "webapp" 3 "Old" "legacy" false false.
Definition task55 : Item := mkItem "webapp" 55 "Fix bug" "details" false false.
Definition epic5 : Item := mkItem "infrastructure" 5 "Epic" "big" true false.

Definition sample_store : GitHubStore :=
  mkStore [pr12] [task3; task55] [epic5].

(** ** Vocabulary of the properties *)

Ltac unfold_M := unfold bind, ret, raise, try_except in *.

(** The key under which the fallback registers the action of type [ty] on
    the item [it]. *)
Definition key_of (ty : string) (it : Item) : ActionKey :=
  mk_key ty (it_repo it) (it_number it).

(** The list [actions] when a loop of the fallback is left, either way. *)
Definition exit_actions (ex : loop_exit) : list dict :=
  match ex with Fallthrough actions | Return actions => actions end.

(** The item [it] is the one designated by [repo] and [number]. *)
Definition targets (it : Item) (repo number : json) : bool :=
  eq_str (it_repo it) repo && eq_int (it_number it) number.

(** The collection of the state that an action of type [ty] is resolved
    against. *)
Definition collection (state : State) (ty : json) : option (list Item) :=
  if eq_str "review_pr" ty then Some (prs_items state)
  else if eq_str "implement_task" ty then Some (tasks_open_items state)
  else if eq_str "decompose_epic" ty then Some (epics_items state)
  else if eq_str "monitor_task" ty then Some (tasks_processing_items state)
  else None.

(** Some item of the collection for [ty] is designated by [repo] and
    [number]. *)
Definition resolvable (state : State) (ty repo number : json) : bool :=
  match collection state ty with
  | Some items => existsb (λ it, targets it repo number) items
  | None => false
  end.

(** The action [e] designates an item of the state. *)
Definition resolved (state : State) (e : dict) : Prop :=
  ∃ ty repo number,
    dict_get "type" e = Some ty ∧ dict_get "repo" e = Some repo ∧
    dict_get "number" e = Some number ∧ resolvable state ty repo number = true.

Definition state_one_pr : State := mkState [pr12] [] [] [].

(** A decision whose second action lacks its repository. *)
Definition half_valid_decision : json :=
  JObj [("actions",
         JArr [JObj [("type", JStr "review_pr"); ("repo", JStr "webapp");
                     ("number", JInt 12); ("priority", JInt 1)];
               JObj [("type", JStr "review_pr")]]);
        ("reasoning", JStr "PRs first")].

Definition state_two_prs : State := mkState [pr12; pr13] [] [] [].

(** What the oracle writes to propose the review of a pull request. *)
Definition propose_review (repo : string) (number : Z) : json :=
  JObj [("type", JStr "review_pr"); ("repo", JStr repo);
        ("number", JInt number)].

(** A decision that proposes pull request 12 once and pull request 13
    twice. *)
Definition repeated_proposals : list json :=
  [propose_review "webapp" 12; propose_review "webapp" 13;
   propose_review "webapp" 13].

(** An implement or monitor action carries the number of an item that is
    not below [floor]. *)
Definition task_action_above_floor (floor : Z) (a : dict) : Prop :=
  ∀ ty, dict_get "type" a = Some ty →
        eq_str "implement_task" ty || eq_str "monitor_task" ty = true →
        ∃ number n, dict_get "number" a = Some number ∧
                    eq_int n number = true ∧ (floor ≤ n)%Z.

(** A failed attempt that is not a timeout: a non-zero return code, or an
    exception other than [TimeoutExpired], be it raised by the call or by
    the decoding of its output. *)
Definition is_transient (o : attempt_outcome) : bool :=
  match o with
  | Completed _ returncode stdout parsed _ =>
      match parse_output stdout parsed with
      | inl _ => negb (returncode =? 0)%Z
      | inr _ => true
      end
  | TimeoutExpired => false
  | OtherError _ _ => true
  end.

(** The seconds a failed attempt that is not a timeout has run. *)
Definition seconds_taken (o : attempt_outcome) : Z :=
  match o with
  | Completed elapsed _ _ _ _ | OtherError elapsed _ => elapsed
  | TimeoutExpired => 0
  end.

(** The trace of failed attempts, each followed by the configured sleep. *)
Definition retried_trace (self : ClaudeAgent) (exec : Z → attempt_outcome)
    (attempts : list Z) : list event :=
  flat_map (λ a, [RunClaude a (seconds_taken (exec a));
                  Sleep (retry_delay self)]) attempts.


(** The attempt count a result carries: under ["attempts"] for a failure and
    under ["attempt"] for a success. *)
Definition recorded_attempts (result : dict) : option Z :=
  match dict_get "attempts" result with
  | Some (JInt n) => Some n
  | _ =>
      match dict_get "attempt" result with
      | Some (JInt n) => Some n
      | _ => None
      end
  end.

(** The configured agent: a first attempt that fails with a non-zero return
    code after 40 seconds, and a second attempt that times out. *)
Definition fails_then_times_out (attempt : Z) : attempt_outcome :=
  if (attempt =? 0)%Z then Completed 40 1 "" DecodeError "boom" else TimeoutExpired.

(** The configured agent with two failing attempts. *)
Definition always_fails (attempt : Z) : attempt_outcome :=
  if (attempt =? 0)%Z then Completed 500 1 "" DecodeError "boom"
  else OtherError 500 "connection reset".

(** The latest end of a thread (0 when there is none). *)
Definition slowest (threads : list Thread) : Z :=
  foldr (λ th m, Z.max (finish th) m) 0%Z threads.

Definition two_reviews : list dict :=
  [review_pr_action pr12; review_pr_action pr13].

(** [a] ends no later than [b]. *)
Definition by_finish (a b : Thread) : Prop := (finish a ≤ finish b)%Z.

(** The first action succeeds after 10 seconds; the two attempts of the
    second one fail after 500 seconds each. *)
Definition quick_then_slow (i : nat) (attempt : Z) : attempt_outcome :=
  match i with
  | 0 => Completed 10 0 "{}" (Loaded (JObj [])) ""
  | _ => always_fails attempt
  end.

Definition late_run : Execution :=
  execute_actions claude action_timeout quick_then_slow two_reviews.

Definition late_result : dict :=
  dict_set "action" (JObj (review_pr_action pr13))
    (exception_result "connection reset" 2).

Definition late_thread : Thread := mkThread 1030 (Some late_result).

(** The display reference of an epic in [epic_has_tasks]. *)
Definition epic_ref (epic : Item) : string :=
  ("#" ++ str_of_int (it_number epic))%string.

(** [ref] occurs in [text]. *)
Definition occurs_in (ref text : string) : Prop :=
  ∃ pre suf, text = (pre ++ ref ++ suf)%string.

(** The three types of action the fallback builds. *)
Definition fallback_types : list json :=
  [JStr "review_pr"; JStr "implement_task"; JStr "decompose_epic"].

(** Every candidate of the fallback, tier after tier. *)
Definition candidates (st : State) : list dict :=
  (review_pr_action <$> prs_items st)
  ++ (implement_task_action <$> tasks_open_items st)
  ++ (decompose_epic_action <$> epics_items st).

(** The action [e] is the proposal [p] completed by [_enrich_action]: an
    item of the collection for its type is designated by its repository and
    number, the title is that of the item, the body is that of the item for
    an implement or decompose action, and every other field is as
    proposed. *)
Definition enriches (st : State) (p : json) (e : dict) : Prop :=
  ∃ d ty items it repo number,
    p = JObj d ∧ dict_get "type" d = Some ty ∧
    collection st ty = Some items ∧ it ∈ items ∧
    dict_get "repo" d = Some repo ∧ dict_get "number" d = Some number ∧
    targets it repo number = true ∧
    (∀ k, k ≠ "title"%string → k ≠ "body"%string →
          dict_get k e = dict_get k d) ∧
    dict_get "title" e = Some (JStr (it_title it)) ∧
    dict_get "body" e
    = if eq_str "implement_task" ty || eq_str "decompose_epic" ty
      then Some (JStr (it_body it)) else dict_get "body" d.

(** The replies on which the [try] block raises before it looks at any
    proposal: the call or the parsing fails, the decision is not a dict, or
    its actions are neither a list nor a string. *)
Definition rejected_early (reply : oracle_reply) : bool :=
  match reply with
  | GenerateRaises | NotJson => true
  | Parsed (JObj kv) =>
      match default (JArr []) (dict_get "actions" kv) with
      | JArr _ | JStr _ => false
      | _ => true
      end
  | Parsed _ => true
  end.

(** The oracle proposes the epic before the pull request. *)
Definition epic_first_decision : json :=
  JObj [("actions",
         JArr [JObj [("type", JStr "decompose_epic");
                     ("repo", JStr "infrastructure"); ("number", JInt 5);
                     ("priority", JInt 3)];
               JObj [("type", JStr "review_pr"); ("repo", JStr "webapp");
                     ("number", JInt 12); ("priority", JInt 1)]])].

Definition epic_first_proposals : list json :=
  [JObj [("type", JStr "decompose_epic");
         ("repo", JStr "infrastructure"); ("number", JInt 5);
         ("priority", JInt 3)];
   JObj [("type", JStr "review_pr"); ("repo", JStr "webapp");
         ("number", JInt 12); ("priority", JInt 1)]].

Definition epic_first_actions : list dict :=
  [[("type", JStr "decompose_epic"); ("repo", JStr "infrastructure");
    ("number", JInt 5); ("priority", JInt 3); ("title", JStr "Epic");
    ("body", JStr "big")];
   [("type", JStr "review_pr"); ("repo", JStr "webapp");
    ("number", JInt 12); ("priority", JInt 1); ("title", JStr "Add login")]].

(** An attempt that does not time out takes between 0 and [timeout]
    seconds. *)
Definition within (timeout : Z) (o : attempt_outcome) : Prop :=
  match o with
  | Completed elapsed _ _ _ _ | OtherError elapsed _ =>
      (0 ≤ elapsed ≤ timeout)%Z
  | TimeoutExpired => True
  end.

(** The label call that [_implement_task] makes after the command. *)
Definition closing_label (result : dict) : event :=
  if is_success result then AddLabel "status:review-requested"
  else RemoveLabel "processing".

(** The four types of action [execute_task] knows. *)
Definition known_type (action_type : string) : bool :=
  String.eqb action_type "review_pr" || String.eqb action_type "implement_task"
  || String.eqb action_type "decompose_epic"
  || String.eqb action_type "monitor_task".

(** Attempts that return code 0 after 20 seconds with an output nested
    too deep for [json.loads]. *)
Definition decoding_raises (attempt : Z) : attempt_outcome :=
  Completed 20 0 "[[[["
    (LoadsRaises "maximum recursion depth exceeded") "".


(** An attempt that fails after 20 seconds, then one that succeeds after 35
    seconds with an output that is not JSON. *)
Definition fails_then_succeeds (attempt : Z) : attempt_outcome :=
  if (attempt =? 0)%Z then OtherError 20 "spawn failed"
  else Completed 35 0 "done" DecodeError "".

(** The issue carries a label that starts with [agent:]. *)
Definition has_agent_label (issue : GhItem) : Prop :=
  ∃ l suf, l ∈ gh_labels issue ∧ l = ("agent:" ++ suf)%string.

(** An answer with one agent task, one epic that is also an agent issue, and
    one unlabelled issue, all in [webapp]. *)
Definition sample_issues (repo : string) : option (list GhItem) :=
  if String.eqb repo "webapp" then
    Some [mkGhItem 60 "Task" "see #9" ["agent:webapp"];
          mkGhItem 9 "Epic" "" ["type:epic"; "agent:tech-lead"];
          mkGhItem 61 "Question" "" []]
  else None.

(** Two pull requests, one open task and one epic. *)
Definition busy_state : State := mkState [pr12; pr13] [task55] [] [epic5].

(** * Properties *)

Example fallback_example :
  (simple_decision_logic 3 (mkState [pr12] [task55] [] [epic5]) ∅).1
  = Ok [review_pr_action pr12; implement_task_action task55;
        decompose_epic_action epic5].
Proof. vm_compute. reflexivity. Qed.

Example scan_example :
  (decide_actions None max_parallel_actions
     (scan_github_state ignore_old_tasks_before_number sample_store) ∅).1
  = Ok [review_pr_action pr12; implement_task_action task55;
        decompose_epic_action epic5].
Proof. vm_compute. reflexivity. Qed.

Example str_of_int_example :
  str_of_int 600 = "600"%string ∧ str_of_int (-5) = "-5"%string ∧
  str_of_int 0 = "0"%string.
Proof. repeat split. Qed.

Example py_str_example :
  py_str (JStr "review") = "review"%string ∧
  py_str (JArr [JStr "a"; JBool true; JObj [("n", JInt (-3))]])
  = "['a', True, {'n': -3}]"%string ∧
  py_str (JStr "it's") = "it's"%string ∧
  String.length (py_repr (JStr "it's")) = 6.
Proof. repeat split. Qed.

Example slice_to_example :
  slice_to 2 [1; 2; 3] = [1; 2] ∧ slice_to 5 [1; 2; 3] = [1; 2; 3] ∧
  slice_to (-1) [1; 2; 3] = [1; 2] ∧ slice_to (-4) [1; 2; 3] = [].
Proof. repeat split. Qed.

(** A budget is a count.  With a negative [max_actions] the slices count
    from the end of the lists and the first admitted action is returned. *)
Example negative_max_actions_example :
  (simple_decision_logic (-1) state_two_prs ∅).1 = Ok [review_pr_action pr12].
Proof. vm_compute. reflexivity. Qed.

Example epic_has_tasks_example :
  epic_has_tasks
    (mkStore [] [mkItem "infrastructure" 60 "Part of #5" "" false false]
       [epic5]) epic5 = true ∧
  epic_has_tasks sample_store epic5 = false.
Proof. split; reflexivity. Qed.

(** The oracle proposes the same review twice, the second time with [true]
    for the number 1: one action comes out. *)
Example oracle_duplicate_example :
  (decide_actions
     (Some (Parsed (JObj [("actions",
        JArr [JObj [("type", JStr "review_pr"); ("repo", JStr "webapp");
                    ("number", JInt 1)];
              JObj [("type", JStr "review_pr"); ("repo", JStr "webapp");
                    ("number", JBool true)]])])))
     3 (mkState [mkItem "webapp" 1 "First" "" false false] [] [] []) ∅).1
  = Ok [[("type", JStr "review_pr"); ("repo", JStr "webapp");
         ("number", JInt 1); ("title", JStr "First")]].
Proof. vm_compute. reflexivity. Qed.

(** ** The monad and the tracker *)

Lemma slice_to_nat {A : Type} (n : nat) (l : list A) :
  slice_to (Z.of_nat n) l = take n l.
Proof.
  unfold slice_to. destruct (Z.leb_spec 0 (Z.of_nat n)); [|lia].
  by rewrite Nat2Z.id.
Qed.

Lemma slice_to_sublist {A : Type} (stop : Z) (l : list A) :
  slice_to stop l `sublist_of` l.
Proof. unfold slice_to. case_match; apply sublist_take. Qed.

Lemma can_process_action_probe ty it tr :
  can_process_action (probe ty it) tr =
  if decide (key_of ty it ∈ tr) then (Ok false, tr)
  else (Ok true, {[key_of ty it]} ∪ tr).
Proof. reflexivity. Qed.

Lemma can_process_action_key action tr :
  match action_key action with
  | Some k =>
      can_process_action action tr =
      if decide (k ∈ tr) then (Ok false, tr) else (Ok true, {[k]} ∪ tr)
  | None => ∃ e, can_process_action action tr = (Raised e, tr)
  end.
Proof.
  unfold action_key, can_process_action, subscript. unfold_M.
  destruct (dict_get "type" action) as [t|]; [|by eexists].
  destruct (dict_get "repo" action) as [r|]; [|by eexists].
  destruct (dict_get "number" action) as [n|]; [|by eexists].
  destruct (to_hashable t); [|by eexists].
  destruct (to_hashable r); [|by eexists].
  destruct (to_hashable n); [|by eexists].
  reflexivity.
Qed.

(** ** The deterministic fallback *)

Lemma scan_tier_spec ty mk max_actions items actions tr :
  ∃ kept ex tr',
    scan_tier ty mk max_actions items actions tr = (Ok ex, tr') ∧
    exit_actions ex = actions ++ (mk <$> kept) ∧
    kept `sublist_of` items ∧
    NoDup (key_of ty <$> kept) ∧
    Forall (λ it, (key_of ty it ∉ tr) ∧ key_of ty it ∈ tr') kept ∧
    tr ⊆ tr'.
Proof.
  revert actions tr. induction items as [|it rest IH]; intros actions tr.
  - exists [], (Fallthrough actions), tr. simpl.
    rewrite app_nil_r. repeat split; try done. constructor.
  - simpl. unfold bind at 1. rewrite can_process_action_probe.
    destruct (decide (key_of ty it ∈ tr)) as [Hin|Hnin].
    + destruct (IH actions tr) as (kept & ex & tr' & Hrun & Hact & Hsub & Hnd & Hall & Hincl).
      exists kept, ex, tr'. repeat split; try done. by apply sublist_cons.
    + destruct (max_actions <=? Z.of_nat (length (actions ++ [mk it])))%Z.
      * exists [it], (Return (actions ++ [mk it])), ({[key_of ty it]} ∪ tr).
        repeat split; simpl; try done.
        -- apply sublist_skip, sublist_nil_l.
        -- apply NoDup_singleton.
        -- repeat constructor; set_solver.
        -- set_solver.
      * destruct (IH (actions ++ [mk it]) ({[key_of ty it]} ∪ tr))
          as (kept & ex & tr' & Hrun & Hact & Hsub & Hnd & Hall & Hincl).
        exists (it :: kept), ex, tr'. repeat split; try done.
        -- rewrite Hact, <- app_assoc. done.
        -- by apply sublist_skip.
        -- simpl. constructor; [|done].
           intros Hk. apply list_elem_of_fmap in Hk as (it' & Heq & Hit').
           rewrite Forall_forall in Hall. destruct (Hall _ Hit') as [Hn _].
           apply Hn. rewrite <- Heq. apply elem_of_union_l, elem_of_singleton.
           done.
        -- constructor.
           ++ split; [done|]. set_solver.
           ++ eapply Forall_impl; [exact Hall|]. simpl. intros x [??].
              split; [set_solver|done].
        -- set_solver.
Qed.

Lemma simple_decision_logic_spec max_actions st tr :
  ∃ ps ts es tr',
    simple_decision_logic max_actions st tr =
      (Ok ((review_pr_action <$> ps) ++ (implement_task_action <$> ts)
           ++ (decompose_epic_action <$> es)), tr') ∧
    ps `sublist_of` slice_to max_actions (prs_items st) ∧
    ts `sublist_of` slice_to (max_actions - Z.of_nat (length ps))
                      (tasks_open_items st) ∧
    es `sublist_of` slice_to (max_actions - Z.of_nat (length ps + length ts))
                      (epics_items st) ∧
    NoDup (key_of "review_pr" <$> ps) ∧
    NoDup (key_of "implement_task" <$> ts) ∧
    NoDup (key_of "decompose_epic" <$> es) ∧
    Forall (λ it, (key_of "review_pr" it ∉ tr)
                  ∧ key_of "review_pr" it ∈ tr') ps ∧
    Forall (λ it, (key_of "implement_task" it ∉ tr)
                  ∧ key_of "implement_task" it ∈ tr') ts ∧
    Forall (λ it, (key_of "decompose_epic" it ∉ tr)
                  ∧ key_of "decompose_epic" it ∈ tr') es ∧
    tr ⊆ tr'.
Proof.
  unfold simple_decision_logic.
  destruct (scan_tier_spec "review_pr" review_pr_action max_actions
              (slice_to max_actions (prs_items st)) [] tr)
    as (ps & ex1 & tr1 & Hrun1 & Hact1 & Hsub1 & Hnd1 & Hall1 & Hincl1).
  unfold bind at 1. rewrite Hrun1. simpl in Hact1.
  destruct ex1 as [a1|a1]; simpl in Hact1; subst a1; cycle 1.
  { exists ps, [], [], tr1. simpl. rewrite app_nil_r.
    repeat split; try done; try apply sublist_nil_l; constructor. }
  rewrite length_fmap.
  destruct (scan_tier_spec "implement_task" implement_task_action max_actions
              (slice_to (max_actions - Z.of_nat (length ps))
                 (tasks_open_items st)) (review_pr_action <$> ps) tr1)
    as (ts & ex2 & tr2 & Hrun2 & Hact2 & Hsub2 & Hnd2 & Hall2 & Hincl2).
  unfold bind at 1. rewrite Hrun2.
  assert (Hps : Forall (λ it, (key_of "review_pr" it ∉ tr)
                              ∧ key_of "review_pr" it ∈ tr2) ps).
  { eapply Forall_impl; [exact Hall1|]. simpl. intros x [??]. set_solver. }
  assert (Hts : Forall (λ it, (key_of "implement_task" it ∉ tr)
                              ∧ key_of "implement_task" it ∈ tr2) ts).
  { eapply Forall_impl; [exact Hall2|]. simpl. intros x [??]. set_solver. }
  destruct ex2 as [a2|a2]; simpl in Hact2; subst a2; cycle 1.
  { exists ps, ts, [], tr2. simpl. rewrite app_nil_r.
    repeat split; try done; try apply sublist_nil_l; try constructor.
    set_solver. }
  rewrite length_app, !length_fmap.
  destruct (scan_tier_spec "decompose_epic" decompose_epic_action max_actions
              (slice_to (max_actions - Z.of_nat (length ps + length ts))
                 (epics_items st))
              ((review_pr_action <$> ps) ++ (implement_task_action <$> ts)) tr2)
    as (es & ex3 & tr3 & Hrun3 & Hact3 & Hsub3 & Hnd3 & Hall3 & Hincl3).
  unfold bind at 1. rewrite Hrun3.
  exists ps, ts, es, tr3.
  split.
  { destruct ex3 as [a3|a3]; simpl in Hact3; subst a3; unfold ret;
      by rewrite <- app_assoc. }
  repeat split; try done.
  - eapply Forall_impl; [exact Hps|]. simpl. intros x [??]. set_solver.
  - eapply Forall_impl; [exact Hts|]. simpl. intros x [??]. set_solver.
  - eapply Forall_impl; [exact Hall3|]. simpl. intros x [??]. set_solver.
  - set_solver.
Qed.

Lemma sublist_slice_length {A : Type} (K n : nat) (l xs : list A) :
  n ≤ K →
  xs `sublist_of` slice_to (Z.of_nat K - Z.of_nat n) l →
  length xs ≤ K - n ∧ xs `sublist_of` l.
Proof.
  intros Hn Hsub.
  replace (Z.of_nat K - Z.of_nat n)%Z with (Z.of_nat (K - n)) in Hsub by lia.
  rewrite slice_to_nat in Hsub. split.
  - apply sublist_length in Hsub. rewrite length_take in Hsub. lia.
  - etrans; [exact Hsub|]. apply sublist_take.
Qed.

Lemma keys_of_tier (ty : string) (mk : Item → dict) (items : list Item) :
  (∀ it, action_key (mk it) = Some (key_of ty it)) →
  action_key <$> (mk <$> items) = Some <$> (key_of ty <$> items).
Proof.
  intros Hmk. rewrite <- !list_fmap_compose. apply list_fmap_ext.
  intros _ it _. simpl. apply Hmk.
Qed.

Lemma keys_of_fallback ps ts es :
  action_key <$> ((review_pr_action <$> ps) ++ (implement_task_action <$> ts)
                  ++ (decompose_epic_action <$> es))
  = Some <$> ((key_of "review_pr" <$> ps) ++ (key_of "implement_task" <$> ts)
              ++ (key_of "decompose_epic" <$> es)).
Proof.
  rewrite !fmap_app.
  rewrite (keys_of_tier "review_pr"), (keys_of_tier "implement_task"),
    (keys_of_tier "decompose_epic"); done.
Qed.

Lemma key_of_tier_neq ty1 ty2 (xs ys : list Item) k :
  ty1 ≠ ty2 → k ∈ key_of ty1 <$> xs → k ∈ key_of ty2 <$> ys → False.
Proof.
  intros Hne (x & -> & _)%list_elem_of_fmap (y & Heq & _)%list_elem_of_fmap.
  unfold key_of, mk_key in Heq. congruence.
Qed.

Lemma NoDup_fallback_keys ps ts es :
  NoDup (key_of "review_pr" <$> ps) →
  NoDup (key_of "implement_task" <$> ts) →
  NoDup (key_of "decompose_epic" <$> es) →
  NoDup ((key_of "review_pr" <$> ps) ++ (key_of "implement_task" <$> ts)
         ++ (key_of "decompose_epic" <$> es)).
Proof.
  intros H1 H2 H3. apply NoDup_app. split; [done|]. split.
  - intros k Hk [Hk'|Hk']%elem_of_app.
    + by eapply (key_of_tier_neq "review_pr" "implement_task").
    + by eapply (key_of_tier_neq "review_pr" "decompose_epic").
  - apply NoDup_app. split; [done|]. split; [|done].
    intros k Hk Hk'.
    by eapply (key_of_tier_neq "implement_task" "decompose_epic").
Qed.

(** C1. For every state, every tracker and every budget [K], the fallback
    returns the review actions of a subsequence of the pull requests,
    followed by the implement actions of a subsequence of the open tasks,
    followed by the decompose actions of a subsequence of the task-less
    epics: at most [K] actions in all, with pairwise distinct keys. *)
Theorem fallback_bounded_distinct_tiered (K : nat) (st : State) (tr : Tracker) :
  ∃ ps ts es tr' keys,
    simple_decision_logic (Z.of_nat K) st tr =
      (Ok ((review_pr_action <$> ps) ++ (implement_task_action <$> ts)
           ++ (decompose_epic_action <$> es)), tr') ∧
    ps `sublist_of` prs_items st ∧
    ts `sublist_of` tasks_open_items st ∧
    es `sublist_of` epics_items st ∧
    length ((review_pr_action <$> ps) ++ (implement_task_action <$> ts)
            ++ (decompose_epic_action <$> es)) ≤ K ∧
    action_key <$> ((review_pr_action <$> ps) ++ (implement_task_action <$> ts)
                    ++ (decompose_epic_action <$> es)) = Some <$> keys ∧
    NoDup keys.
Proof.
  destruct (simple_decision_logic_spec (Z.of_nat K) st tr)
    as (ps & ts & es & tr' & Hrun & Hps & Hts & Hes & N1 & N2 & N3 & _).
  rewrite slice_to_nat in Hps.
  assert (Lps : length ps ≤ K).
  { apply sublist_length in Hps. rewrite length_take in Hps. lia. }
  apply sublist_slice_length in Hts as [Lts Hts]; [|done].
  replace (Z.of_nat (length ps + length ts))
    with (Z.of_nat (length ps + length ts)) in Hes by done.
  apply sublist_slice_length in Hes as [Les Hes]; [|lia].
  exists ps, ts, es, tr'. eexists. split; [exact Hrun|].
  repeat split.
  - etrans; [exact Hps|]. apply sublist_take.
  - done.
  - done.
  - rewrite !length_app, !length_fmap. lia.
  - apply keys_of_fallback.
  - by apply NoDup_fallback_keys.
Qed.

(** ** Enrichment against the snapshot *)

Lemma dict_get_set_ne k k' v d :
  k ≠ k' → dict_get k (dict_set k' v d) = dict_get k d.
Proof.
  intros Hne. induction d as [|[k0 v0] d IH]; simpl.
  - destruct (String.eqb_spec k k'); done.
  - destruct (String.eqb_spec k' k0) as [->|]; simpl.
    + destruct (String.eqb_spec k k0); done.
    + by rewrite IH.
Qed.

Lemma find_item_fields d items repo number tr :
  dict_get "repo" d = Some repo → dict_get "number" d = Some number →
  find_item (JObj d) items tr
  = (Ok (List.find (λ it, targets it repo number) items), tr).
Proof.
  intros Hr Hn. induction items as [|it rest IH]; [done|].
  simpl. unfold bind, subscript. rewrite Hr. unfold ret at 1.
  unfold targets at 1. destruct (eq_str (it_repo it) repo); simpl; [|done].
  rewrite Hn. unfold ret at 1. by destruct (eq_int (it_number it) number).
Qed.

Lemma find_item_tracker action items tr res tr' :
  find_item action items tr = (res, tr') → tr' = tr.
Proof.
  revert res tr'. induction items as [|it rest IH]; intros res tr'; simpl.
  - unfold ret. congruence.
  - unfold bind, subscript.
    destruct action; unfold raise; try congruence.
    destruct (dict_get "repo" kv) as [r|]; unfold ret, raise; [|congruence].
    destruct (eq_str (it_repo it) r); [|apply IH].
    destruct (dict_get "number" kv) as [n|]; [|congruence].
    destruct (eq_int (it_number it) n); [congruence|apply IH].
Qed.

Lemma find_item_found action items tr it tr' :
  find_item action items tr = (Ok (Some it), tr') →
  ∃ d repo number,
    action = JObj d ∧ dict_get "repo" d = Some repo ∧
    dict_get "number" d = Some number ∧
    it ∈ items ∧ targets it repo number = true.
Proof.
  induction items as [|it0 rest IH]; simpl.
  - unfold ret. congruence.
  - unfold bind, subscript.
    destruct action as [| | | | |d]; unfold raise; try congruence.
    destruct (dict_get "repo" d) as [r|] eqn:Hr; unfold ret, raise;
      [|congruence].
    destruct (eq_str (it_repo it0) r) eqn:Er; cycle 1.
    { intros H. destruct (IH H) as (d' & r' & n' & ? & ? & ? & ? & ?).
      exists d', r', n'. repeat split; try done. by apply list_elem_of_further. }
    destruct (dict_get "number" d) as [n|] eqn:Hn; [|congruence].
    destruct (eq_int (it_number it0) n) eqn:En.
    + intros [= ->]. exists d, r, n. repeat split; try done.
      * apply list_elem_of_here.
      * unfold targets. by rewrite Er, En.
    + intros H. destruct (IH H) as (d' & r' & n' & ? & ? & ? & ? & ?).
      exists d', r', n'. repeat split; try done. by apply list_elem_of_further.
Qed.

Lemma found_resolvable st ty items it repo number :
  collection st ty = Some items → it ∈ items →
  targets it repo number = true → resolvable st ty repo number = true.
Proof.
  intros Hc Hin Ht. unfold resolvable. rewrite Hc.
  apply existsb_exists. exists it. split; [|done]. by apply list_elem_of_In.
Qed.

Lemma enrich_action_tracker action st tr res tr' :
  enrich_action action st tr = (res, tr') → tr' = tr.
Proof.
  unfold enrich_action, bind at 1, subscript.
  destruct action as [| | | | |d]; unfold raise; try congruence.
  destruct (dict_get "type" d) as [ty|]; [unfold ret at 1|congruence].
  repeat case_match; unfold bind; try (unfold ret; congruence);
    match goal with
    | |- context [find_item ?a ?l ?t] =>
        destruct (find_item a l t) as [[[it|]|e] tr1] eqn:F;
        apply find_item_tracker in F; subst tr1; unfold ret; congruence
    end.
Qed.

Lemma enrich_action_resolved action st tr e tr' :
  enrich_action action st tr = (Ok (Some e), tr') → resolved st e.
Proof.
  unfold enrich_action, bind at 1, subscript.
  destruct action as [| | | | |d]; unfold raise; try congruence.
  destruct (dict_get "type" d) as [ty|] eqn:Hty; [unfold ret at 1|congruence].
  assert (Hres : ∀ items it t1,
    collection st ty = Some items →
    find_item (JObj d) items tr = (Ok (Some it), t1) →
    ∀ e', dict_get "type" e' = dict_get "type" d →
          dict_get "repo" e' = dict_get "repo" d →
          dict_get "number" e' = dict_get "number" d →
          resolved st e').
  { intros items it t1 Hc F e' E1 E2 E3.
    apply find_item_found in F as (d' & r & n & [= <-] & Hr & Hn & Hin & Ht).
    exists ty, r, n. rewrite E1, E2, E3. repeat split; try done.
    by eapply found_resolvable. }
  unfold collection in Hres.
  destruct (eq_str "review_pr" ty).
  { unfold bind.
    destruct (find_item (JObj d) (prs_items st) tr) as [[[it|]|ex] t1] eqn:F;
      unfold ret; try congruence.
    intros [= <- <-]. eapply Hres; [done|exact F|..];
      by rewrite ?dict_get_set_ne. }
  destruct (eq_str "implement_task" ty).
  { unfold bind.
    destruct (find_item (JObj d) (tasks_open_items st) tr)
      as [[[it|]|ex] t1] eqn:F; unfold ret; try congruence.
    intros [= <- <-]. eapply Hres; [done|exact F|..];
      by rewrite ?dict_get_set_ne. }
  destruct (eq_str "decompose_epic" ty).
  { unfold bind.
    destruct (find_item (JObj d) (epics_items st) tr)
      as [[[it|]|ex] t1] eqn:F; unfold ret; try congruence.
    intros [= <- <-]. eapply Hres; [done|exact F|..];
      by rewrite ?dict_get_set_ne. }
  destruct (eq_str "monitor_task" ty).
  { unfold bind.
    destruct (find_item (JObj d) (tasks_processing_items st) tr)
      as [[[it|]|ex] t1] eqn:F; unfold ret; try congruence.
    intros [= <- <-]. eapply Hres; [done|exact F|..];
      by rewrite ?dict_get_set_ne. }
  unfold ret. congruence.
Qed.

Lemma find_unresolvable (items : list Item) repo number :
  existsb (λ it, targets it repo number) items = false →
  List.find (λ it, targets it repo number) items = None.
Proof.
  induction items as [|it rest IH]; [done|]. simpl.
  destruct (targets it repo number); [done|]. exact IH.
Qed.

Lemma enrich_action_unresolvable d st ty repo number tr :
  dict_get "type" d = Some ty → dict_get "repo" d = Some repo →
  dict_get "number" d = Some number →
  resolvable st ty repo number = false →
  enrich_action (JObj d) st tr = (Ok None, tr).
Proof.
  intros Hty Hr Hn Hres.
  unfold enrich_action, bind at 1, subscript. rewrite Hty. unfold ret at 1.
  unfold resolvable, collection in Hres.
  repeat case_match; try done; simplify_eq; unfold bind;
    rewrite (find_item_fields d _ repo number tr Hr Hn);
    by rewrite find_unresolvable.
Qed.

Lemma can_process_action_tracker action tr res tr' :
  can_process_action action tr = (res, tr') → tr ⊆ tr'.
Proof.
  pose proof (can_process_action_key action tr) as H.
  destruct (action_key action) as [k|].
  - rewrite H. case_decide; intros [= <- <-]; set_solver.
  - destruct H as [e ->]. intros [= <- <-]. done.
Qed.

Lemma enrich_loop_tracker st actions acc tr res tr' :
  enrich_loop st actions acc tr = (res, tr') → tr ⊆ tr'.
Proof.
  revert acc tr. induction actions as [|action rest IH]; intros acc tr; simpl.
  - unfold ret. by intros [= <- <-].
  - unfold bind at 1.
    destruct (enrich_action action st tr) as [[[e|]|ex] t1] eqn:E;
      apply enrich_action_tracker in E; subst t1.
    + unfold bind.
      destruct (can_process_action e tr) as [[[]|ex] t2] eqn:C;
        apply can_process_action_tracker in C.
      * intros H%IH. set_solver.
      * intros H%IH. set_solver.
      * intros [= <- <-]. done.
    + apply IH.
    + by intros [= <- <-].
Qed.

Lemma enrich_loop_spec st actions acc tr out tr' :
  enrich_loop st actions acc tr = (Ok out, tr') →
  ∃ new keys,
    out = acc ++ new ∧ action_key <$> new = Some <$> keys ∧ NoDup keys ∧
    Forall (λ k, (k ∉ tr) ∧ k ∈ tr') keys ∧ Forall (resolved st) new.
Proof.
  revert acc tr. induction actions as [|action rest IH]; intros acc tr; simpl.
  - unfold ret. intros [= <- <-]. exists [], []. rewrite app_nil_r.
    repeat split; constructor.
  - unfold bind at 1.
    destruct (enrich_action action st tr) as [[[e|]|ex] t1] eqn:E;
      [|apply enrich_action_tracker in E; subst t1; apply IH|done].
    pose proof (enrich_action_resolved _ _ _ _ _ E) as Hres.
    apply enrich_action_tracker in E; subst t1.
    unfold bind. pose proof (can_process_action_key e tr) as Hc.
    destruct (action_key e) as [k|] eqn:Hk; [|by destruct Hc as [? ->]].
    rewrite Hc. destruct (decide (k ∈ tr)) as [Hin|Hnin]; [apply IH|].
    intros Hrun. pose proof (enrich_loop_tracker _ _ _ _ _ _ Hrun) as Hincl.
    apply IH in Hrun as (new & keys & -> & Hkeys & Hnd & Hall & Hr).
    exists (e :: new), (k :: keys). repeat split.
    + by rewrite <- app_assoc.
    + by rewrite !fmap_cons, Hk, Hkeys.
    + constructor; [|done]. intros Hin. rewrite Forall_forall in Hall.
      destruct (Hall _ Hin) as [Hn _]. apply Hn. set_solver.
    + constructor; [split; [done|set_solver]|].
      eapply Forall_impl; [exact Hall|]. simpl. intros x [??].
      split; [set_solver|done].
    + by constructor.
Qed.

Lemma consult_oracle_tracker reply max_actions st tr res tr' :
  consult_oracle reply max_actions st tr = (res, tr') → tr ⊆ tr'.
Proof.
  unfold consult_oracle. destruct reply as [| |decision].
  - by intros [= <- <-].
  - by intros [= <- <-].
  - unfold bind, get_default.
    destruct decision; unfold raise; try by intros [= <- <-].
    unfold ret at 1 2. unfold py_len, sliced_elements.
    destruct (default (JArr []) (dict_get "actions" kv));
      unfold raise, ret; try by intros [= <- <-].
    + apply enrich_loop_tracker.
    + apply enrich_loop_tracker.
Qed.

Lemma consult_oracle_spec reply max_actions st tr out tr' :
  consult_oracle reply max_actions st tr = (Ok out, tr') →
  ∃ keys,
    action_key <$> out = Some <$> keys ∧ NoDup keys ∧
    Forall (λ k, (k ∉ tr) ∧ k ∈ tr') keys ∧ Forall (resolved st) out.
Proof.
  unfold consult_oracle. destruct reply as [| |decision]; [done|done|].
  unfold bind, get_default.
  destruct decision; unfold raise; try done.
  unfold ret at 1 2. unfold py_len, sliced_elements.
  destruct (default (JArr []) (dict_get "actions" kv));
    unfold raise, ret; try done.
  - intros (new & keys & -> & ?)%enrich_loop_spec. by exists keys.
  - intros (new & keys & -> & ?)%enrich_loop_spec. by exists keys.
Qed.

Lemma fallback_action_resolved st (ty : string) (mk : Item → dict)
    (items kept : list Item) :
  collection st (JStr ty) = Some items →
  (∀ it, dict_get "type" (mk it) = Some (JStr ty) ∧
         dict_get "repo" (mk it) = Some (JStr (it_repo it)) ∧
         dict_get "number" (mk it) = Some (JInt (it_number it))) →
  kept `sublist_of` items →
  Forall (resolved st) (mk <$> kept).
Proof.
  intros Hc Hmk Hsub. apply Forall_fmap, Forall_forall. intros it Hin.
  destruct (Hmk it) as (H1 & H2 & H3).
  exists (JStr ty), (JStr (it_repo it)), (JInt (it_number it)).
  repeat split; try done.
  eapply found_resolvable; [exact Hc| |].
  - eapply elem_of_sublist; [exact Hin|exact Hsub].
  - unfold targets. simpl. by rewrite String.eqb_refl, Z.eqb_refl.
Qed.

(** Every run of [_decide_actions] returns a list, the keys of the returned
    actions are pairwise distinct, they were not registered before the call
    and are registered after it, and every returned action designates an
    item of the state. *)
Lemma decide_actions_spec ollama max_actions st tr :
  ∃ acts tr' keys,
    decide_actions ollama max_actions st tr = (Ok acts, tr') ∧
    action_key <$> acts = Some <$> keys ∧ NoDup keys ∧
    Forall (λ k, (k ∉ tr) ∧ k ∈ tr') keys ∧
    Forall (resolved st) acts.
Proof.
  assert (Hfb : ∀ t0, tr ⊆ t0 → ∃ acts tr' keys,
    simple_decision_logic max_actions st t0 = (Ok acts, tr') ∧
    action_key <$> acts = Some <$> keys ∧ NoDup keys ∧
    Forall (λ k, (k ∉ tr) ∧ k ∈ tr') keys ∧ Forall (resolved st) acts).
  { intros t0 Ht0.
    destruct (simple_decision_logic_spec max_actions st t0)
      as (ps & ts & es & tr' & Hrun & Hps & Hts & Hes & N1 & N2 & N3
          & A1 & A2 & A3 & Hincl).
    eexists _, tr', _. split; [exact Hrun|].
    split; [apply keys_of_fallback|].
    split; [by apply NoDup_fallback_keys|]. split.
    - rewrite !Forall_app, !Forall_fmap. repeat split.
      + eapply Forall_impl; [exact A1|]. simpl. intros x [??]. set_solver.
      + eapply Forall_impl; [exact A2|]. simpl. intros x [??]. set_solver.
      + eapply Forall_impl; [exact A3|]. simpl. intros x [??]. set_solver.
    - rewrite !Forall_app. repeat split.
      + eapply (fallback_action_resolved st "review_pr"); [done|done|].
        etrans; [exact Hps|apply slice_to_sublist].
      + eapply (fallback_action_resolved st "implement_task"); [done|done|].
        etrans; [exact Hts|apply slice_to_sublist].
      + eapply (fallback_action_resolved st "decompose_epic"); [done|done|].
        etrans; [exact Hes|apply slice_to_sublist]. }
  destruct ollama as [reply|]; simpl; [|by apply Hfb].
  unfold try_except.
  destruct (consult_oracle reply max_actions st tr) as [[out|ex] t1] eqn:E.
  - apply consult_oracle_spec in E as (keys & ?). by exists out, t1, keys.
  - apply consult_oracle_tracker in E. by apply Hfb.
Qed.

(** ** Deduplication *)

(** The result of a lookup or of an enrichment does not depend on the
    tracker. *)
Lemma find_item_pure action items :
  ∃ r, ∀ tr, find_item action items tr = (r, tr).
Proof.
  induction items as [|it rest [r IH]]; simpl.
  - by exists (Ok None).
  - unfold bind, subscript.
    destruct action as [| | | | |d]; try by exists (Raised TypeError).
    destruct (dict_get "repo" d) as [rp|]; [|by exists (Raised KeyError)].
    unfold ret at 1. destruct (eq_str (it_repo it) rp); [|by exists r].
    destruct (dict_get "number" d) as [n|]; [|by exists (Raised KeyError)].
    unfold ret at 1.
    destruct (eq_int (it_number it) n); [by exists (Ok (Some it))|by exists r].
Qed.

Lemma enrich_action_pure action st :
  ∃ r, ∀ tr, enrich_action action st tr = (r, tr).
Proof.
  unfold enrich_action, bind at 1, subscript.
  destruct action as [| | | | |d]; try by exists (Raised TypeError).
  destruct (dict_get "type" d) as [ty|]; [|by exists (Raised KeyError)].
  unfold ret at 1.
  repeat case_match; try (by exists (Ok None)); unfold bind;
    match goal with
    | |- context [find_item ?a ?l] =>
        destruct (find_item_pure a l) as [[[it|]|e] F]
    end;
    eexists; intros tr; rewrite F; reflexivity.
Qed.

Lemma enrich_loop_complete st actions acc tr out tr' :
  enrich_loop st actions acc tr = (Ok out, tr') →
  ∃ new keys,
    out = acc ++ new ∧ action_key <$> new = Some <$> keys ∧
    Forall (λ p, ∀ e k, (enrich_action p st tr).1 = Ok (Some e) →
                        action_key e = Some k → k ∈ tr ∨ k ∈ keys) actions.
Proof.
  revert acc tr. induction actions as [|action rest IH]; intros acc tr; simpl.
  - unfold ret. intros [= <- <-]. exists [], []. rewrite app_nil_r.
    repeat split; constructor.
  - unfold bind at 1.
    destruct (enrich_action action st tr) as [[[e|]|ex] t1] eqn:E;
      pose proof (enrich_action_tracker _ _ _ _ _ E) as ->; [| |done].
    + unfold bind. pose proof (can_process_action_key e tr) as Hc.
      destruct (action_key e) as [k|] eqn:Hk; [|by destruct Hc as [? ->]].
      rewrite Hc. destruct (decide (k ∈ tr)) as [Hin|Hnin].
      * intros (new & keys & -> & Hkeys & Hall)%IH.
        exists new, keys. repeat split; try done. constructor; [|done].
        intros e' k'. rewrite E. simpl. intros [= <-]. rewrite Hk.
        intros [= <-]. by left.
      * intros (new & keys & -> & Hkeys & Hall)%IH.
        exists (e :: new), (k :: keys). repeat split.
        -- by rewrite <- app_assoc.
        -- by rewrite !fmap_cons, Hk, Hkeys.
        -- constructor.
           ++ intros e' k'. rewrite E. simpl. intros [= <-]. rewrite Hk.
              intros [= <-]. right. apply list_elem_of_here.
           ++ eapply Forall_impl; [exact Hall|]. simpl. intros p Hp e' k' He' Hk'.
              destruct (enrich_action_pure p st) as [r F].
              rewrite F in He'. specialize (Hp e' k'). rewrite F in Hp.
              destruct (Hp He' Hk') as [Ht|Ht]; [|right; by apply list_elem_of_further].
              apply elem_of_union in Ht as [->%elem_of_singleton|Ht];
                [right; apply list_elem_of_here|by left].
    + intros (new & keys & -> & Hkeys & Hall)%IH.
      exists new, keys. repeat split; try done. constructor; [|done].
      intros e' k'. rewrite E. simpl. done.
Qed.

Lemma scan_tier_examined ty mk max_actions items actions tr :
  ∃ kept ex tr',
    scan_tier ty mk max_actions items actions tr = (Ok ex, tr') ∧
    exit_actions ex = actions ++ (mk <$> kept) ∧
    (∀ k, k ∈ tr' → k ∈ tr ∨ k ∈ key_of ty <$> kept) ∧
    match ex with
    | Fallthrough _ =>
        Forall (λ it, key_of ty it ∈ tr ∨ key_of ty it ∈ key_of ty <$> kept)
          items
    | Return returned => (max_actions ≤ Z.of_nat (length returned))%Z
    end.
Proof.
  revert actions tr. induction items as [|it rest IH]; intros actions tr.
  - exists [], (Fallthrough actions), tr. simpl. rewrite app_nil_r.
    repeat split; [by left|constructor].
  - simpl. unfold bind at 1. rewrite can_process_action_probe.
    destruct (decide (key_of ty it ∈ tr)) as [Hin|Hnin].
    + destruct (IH actions tr) as (kept & ex & tr' & Hrun & Hact & Htr & Hex).
      exists kept, ex, tr'. repeat split; try done.
      destruct ex; [|done]. constructor; [by left|done].
    + destruct (Z.leb_spec max_actions (Z.of_nat (length (actions ++ [mk it])))).
      * exists [it], (Return (actions ++ [mk it])), ({[key_of ty it]} ∪ tr).
        repeat split; simpl; try done.
        intros k [->%elem_of_singleton|Hk]%elem_of_union;
          [right; apply list_elem_of_here|by left].
      * destruct (IH (actions ++ [mk it]) ({[key_of ty it]} ∪ tr))
          as (kept & ex & tr' & Hrun & Hact & Htr & Hex).
        assert (Hweak : ∀ k, k ∈ {[key_of ty it]} ∪ tr ∨ k ∈ key_of ty <$> kept →
                             k ∈ tr ∨ k ∈ key_of ty <$> (it :: kept)).
        { intros k [[->%elem_of_singleton|Hk]%elem_of_union|Hk].
          - right. apply list_elem_of_here.
          - by left.
          - right. by apply list_elem_of_further. }
        exists (it :: kept), ex, tr'. repeat split; try done.
        -- rewrite Hact, <- app_assoc. done.
        -- intros k Hk. apply Hweak. by apply Htr.
        -- destruct ex; [|done]. constructor.
           ++ right. apply list_elem_of_here.
           ++ eapply Forall_impl; [exact Hex|]. simpl. intros x Hx.
              by apply Hweak.
Qed.

Lemma key_of_other_tier ty1 ty2 it (xs : list Item) :
  ty1 ≠ ty2 → key_of ty1 it ∈ key_of ty2 <$> xs → False.
Proof.
  intros Hne (y & Heq & _)%list_elem_of_fmap.
  unfold key_of, mk_key in Heq. congruence.
Qed.

Lemma simple_decision_logic_examined max_actions st tr :
  ∃ ps ts es tr',
    simple_decision_logic max_actions st tr =
      (Ok ((review_pr_action <$> ps) ++ (implement_task_action <$> ts)
           ++ (decompose_epic_action <$> es)), tr') ∧
    ((Z.of_nat (length ps + length ts + length es) < max_actions)%Z →
     Forall (λ it, key_of "review_pr" it ∈ tr
                   ∨ key_of "review_pr" it ∈ key_of "review_pr" <$> ps)
       (slice_to max_actions (prs_items st)) ∧
     Forall (λ it, key_of "implement_task" it ∈ tr
                   ∨ key_of "implement_task" it
                     ∈ key_of "implement_task" <$> ts)
       (slice_to (max_actions - Z.of_nat (length ps)) (tasks_open_items st)) ∧
     Forall (λ it, key_of "decompose_epic" it ∈ tr
                   ∨ key_of "decompose_epic" it
                     ∈ key_of "decompose_epic" <$> es)
       (slice_to (max_actions - Z.of_nat (length ps + length ts))
          (epics_items st))).
Proof.
  unfold simple_decision_logic.
  destruct (scan_tier_examined "review_pr" review_pr_action max_actions
              (slice_to max_actions (prs_items st)) [] tr)
    as (ps & ex1 & tr1 & Hrun1 & Hact1 & Htr1 & Hex1).
  unfold bind at 1. rewrite Hrun1. simpl in Hact1.
  destruct ex1 as [a1|a1]; simpl in Hact1; subst a1; cycle 1.
  { exists ps, [], [], tr1. simpl. rewrite app_nil_r. split; [done|].
    rewrite length_fmap in Hex1. lia. }
  rewrite length_fmap.
  destruct (scan_tier_examined "implement_task" implement_task_action
              max_actions
              (slice_to (max_actions - Z.of_nat (length ps))
                 (tasks_open_items st)) (review_pr_action <$> ps) tr1)
    as (ts & ex2 & tr2 & Hrun2 & Hact2 & Htr2 & Hex2).
  unfold bind at 1. rewrite Hrun2.
  destruct ex2 as [a2|a2]; simpl in Hact2; subst a2; cycle 1.
  { exists ps, ts, [], tr2. simpl. rewrite app_nil_r. split; [done|].
    rewrite length_app, !length_fmap in Hex2. lia. }
  rewrite length_app, !length_fmap.
  destruct (scan_tier_examined "decompose_epic" decompose_epic_action
              max_actions
              (slice_to (max_actions - Z.of_nat (length ps + length ts))
                 (epics_items st))
              ((review_pr_action <$> ps) ++ (implement_task_action <$> ts))
              tr2)
    as (es & ex3 & tr3 & Hrun3 & Hact3 & Htr3 & Hex3).
  unfold bind at 1. rewrite Hrun3.
  exists ps, ts, es, tr3. split.
  { destruct ex3 as [a3|a3]; simpl in Hact3; subst a3; unfold ret;
      by rewrite <- app_assoc. }
  intros Hlt. destruct ex3 as [a3|a3]; simpl in Hact3; subst a3; cycle 1.
  { rewrite !length_app, !length_fmap in Hex3. lia. }
  split; [done|]. split.
  - eapply Forall_impl; [exact Hex2|]. simpl. intros it [Hit|Hit]; [|by right].
    destruct (Htr1 _ Hit) as [?|Hps]; [by left|].
    by destruct (key_of_other_tier "implement_task" "review_pr" it ps).
  - eapply Forall_impl; [exact Hex3|]. simpl. intros it [Hit|Hit]; [|by right].
    destruct (Htr2 _ Hit) as [Hit1|Hts].
    + destruct (Htr1 _ Hit1) as [?|Hps]; [by left|].
      by destruct (key_of_other_tier "decompose_epic" "review_pr" it ps).
    + by destruct (key_of_other_tier "decompose_epic" "implement_task" it ts).
Qed.

(** C2. Whatever strategy runs and whatever the oracle proposes,
    [_decide_actions] returns a list whose action keys are pairwise distinct;
    none of them was registered before the call and all are registered after
    it.  [_can_process_action] answers [False] and leaves the tracker alone
    when the key is registered, and otherwise registers the key and answers
    [True].  A collision drops the candidate alone and the selection moves
    to the next one.  In the fallback, when fewer actions than the budget
    are returned, every item of the three examined slices has its key
    registered before the call or carried by a returned action.  On the
    oracle path, when the [try] block does not raise, its actions are
    returned, and every proposal of the examined slice that resolves to an
    action has the key of that action registered before the call or carried
    by a returned action. *)
Theorem decided_keys_distinct (ollama : option oracle_reply)
    (max_actions : Z) (st : State) (tr : Tracker) :
  (∃ acts tr' keys,
     decide_actions ollama max_actions st tr = (Ok acts, tr') ∧
     action_key <$> acts = Some <$> keys ∧ NoDup keys ∧
     Forall (λ k, (k ∉ tr) ∧ k ∈ tr') keys) ∧
  (∀ action : dict,
     match action_key action with
     | Some k =>
         can_process_action action tr =
         if decide (k ∈ tr) then (Ok false, tr) else (Ok true, {[k]} ∪ tr)
     | None => ∃ e, can_process_action action tr = (Raised e, tr)
     end) ∧
  (∃ ps ts es tr',
     decide_actions None max_actions st tr =
       (Ok ((review_pr_action <$> ps) ++ (implement_task_action <$> ts)
            ++ (decompose_epic_action <$> es)), tr') ∧
     ((Z.of_nat (length ps + length ts + length es) < max_actions)%Z →
      Forall (λ it, key_of "review_pr" it ∈ tr
                    ∨ key_of "review_pr" it ∈ key_of "review_pr" <$> ps)
        (slice_to max_actions (prs_items st)) ∧
      Forall (λ it, key_of "implement_task" it ∈ tr
                    ∨ key_of "implement_task" it
                      ∈ key_of "implement_task" <$> ts)
        (slice_to (max_actions - Z.of_nat (length ps))
           (tasks_open_items st)) ∧
      Forall (λ it, key_of "decompose_epic" it ∈ tr
                    ∨ key_of "decompose_epic" it
                      ∈ key_of "decompose_epic" <$> es)
        (slice_to (max_actions - Z.of_nat (length ps + length ts))
           (epics_items st)))) ∧
  (∀ (kv : dict) (proposals : list json) (out : list dict),
     dict_get "actions" kv = Some (JArr proposals) →
     (consult_oracle (Parsed (JObj kv)) max_actions st tr).1 = Ok out →
     (decide_actions (Some (Parsed (JObj kv))) max_actions st tr).1 = Ok out ∧
     ∃ keys,
       action_key <$> out = Some <$> keys ∧
       Forall (λ p, ∀ e k, (enrich_action p st tr).1 = Ok (Some e) →
                           action_key e = Some k → k ∈ tr ∨ k ∈ keys)
         (slice_to max_actions proposals)).
Proof.
  split; [|split; [|split]].
  - destruct (decide_actions_spec ollama max_actions st tr)
      as (acts & tr' & keys & Hrun & Hk & Hnd & Hall & _).
    by exists acts, tr', keys.
  - intros action. apply can_process_action_key.
  - apply simple_decision_logic_examined.
  - intros kv proposals out Hkv Hout.
    unfold decide_actions, try_except.
    destruct (consult_oracle (Parsed (JObj kv)) max_actions st tr)
      as [[o|ex] t1] eqn:E; simpl in Hout; [|done].
    injection Hout as ->. split; [done|].
    unfold consult_oracle, bind, get_default, py_len, sliced_elements, ret
      in E.
    rewrite Hkv in E. simpl in E.
    apply enrich_loop_complete in E as (new & keys & -> & Hkeys & Hall).
    by exists keys.
Qed.

Lemma decided_keys_distinct_witness :
  (∃ ps ts es,
     (review_pr_action <$> ps) ++ (implement_task_action <$> ts)
       ++ (decompose_epic_action <$> es) = [review_pr_action pr13] ∧
     Forall (λ it, key_of "review_pr" it ∈ ({[key_of "review_pr" pr12]} : Tracker)
                   ∨ key_of "review_pr" it ∈ key_of "review_pr" <$> ps)
       [pr12; pr13]) ∧
  (decide_actions (Some (Parsed (JObj [("actions", JArr repeated_proposals)])))
     3 state_two_prs {[key_of "review_pr" pr12]}).1
  = Ok [[("type", JStr "review_pr"); ("repo", JStr "webapp");
         ("number", JInt 13); ("title", JStr "Fix logout")]] ∧
  ∃ keys,
    action_key <$> [[("type", JStr "review_pr"); ("repo", JStr "webapp");
                     ("number", JInt 13); ("title", JStr "Fix logout")]]
    = Some <$> keys ∧
    Forall (λ p, ∀ e k,
              (enrich_action p state_two_prs {[key_of "review_pr" pr12]}).1
              = Ok (Some e) →
              action_key e = Some k →
              k ∈ ({[key_of "review_pr" pr12]} : Tracker) ∨ k ∈ keys)
      repeated_proposals.
Proof.
  destruct (decided_keys_distinct None 3 state_two_prs
              {[key_of "review_pr" pr12]})
    as (_ & _ & (ps & ts & es & tr' & Hrun & Hall) & Horacle).
  assert (Hacts :
    (review_pr_action <$> ps) ++ (implement_task_action <$> ts)
      ++ (decompose_epic_action <$> es) = [review_pr_action pr13]).
  { apply (f_equal fst) in Hrun. revert Hrun.
    assert ((decide_actions None 3 state_two_prs
               {[key_of "review_pr" pr12]}).1
            = Ok [review_pr_action pr13]) as -> by (vm_compute; reflexivity).
    simpl. by intros [= <-]. }
  split.
  - exists ps, ts, es. split; [exact Hacts|].
    apply Hall. apply (f_equal length) in Hacts.
    rewrite !length_app, !length_fmap in Hacts. simpl in Hacts. lia.
  - apply (Horacle [("actions", JArr repeated_proposals)] repeated_proposals).
    + reflexivity.
    + vm_compute. reflexivity.
Defined.

(** ** Unresolvable proposals *)

(** C8. When no item of the collection matching the type carries the
    proposed repository and number, [_enrich_action] returns [None] for
    every proposal with these three fields, and no action with these three
    fields is in the list returned by [_decide_actions]. *)
Theorem unresolvable_action_dropped (st : State) (ty repo number : json) :
  resolvable st ty repo number = false →
  (∀ (d : dict) (tr : Tracker),
     dict_get "type" d = Some ty → dict_get "repo" d = Some repo →
     dict_get "number" d = Some number →
     enrich_action (JObj d) st tr = (Ok None, tr)) ∧
  (∀ (ollama : option oracle_reply) (max_actions : Z) (tr : Tracker),
     ∃ acts tr',
       decide_actions ollama max_actions st tr = (Ok acts, tr') ∧
       Forall (resolved st) acts ∧
       Forall (λ a, ¬ (dict_get "type" a = Some ty ∧
                       dict_get "repo" a = Some repo ∧
                       dict_get "number" a = Some number)) acts).
Proof.
  intros Hres. split.
  - intros d tr Hty Hr Hn. by eapply enrich_action_unresolvable.
  - intros ollama max_actions tr.
    destruct (decide_actions_spec ollama max_actions st tr)
      as (acts & tr' & keys & Hrun & _ & _ & _ & Hall).
    exists acts, tr'. split; [done|]. split; [done|].
    eapply Forall_impl; [exact Hall|]. simpl.
    intros a (ty' & r' & n' & H1 & H2 & H3 & Hok) (E1 & E2 & E3).
    congruence.
Qed.

Lemma unresolvable_action_dropped_witness :
  resolvable state_one_pr (JStr "review_pr") (JStr "webapp") (JInt 99) = false
  ∧ enrich_action
      (JObj [("type", JStr "review_pr"); ("repo", JStr "webapp");
             ("number", JInt 99); ("priority", JInt 1)])
      state_one_pr ∅
    = (Ok None, ∅).
Proof.
  split; [reflexivity|].
  apply (unresolvable_action_dropped state_one_pr (JStr "review_pr")
           (JStr "webapp") (JInt 99)); reflexivity.
Defined.

(** ** Failure of the oracle *)

(** When the oracle call itself raises, or its answer is not JSON, the
    fallback runs on the tracker as it was. *)
Lemma decide_actions_call_failure reply max_actions st :
  reply = GenerateRaises ∨ reply = NotJson →
  decide_actions (Some reply) max_actions st
  = simple_decision_logic max_actions st.
Proof. intros [-> | ->]; reflexivity. Qed.

(** When the [try] block raises, the fallback runs on the tracker left by
    the block. *)
Lemma decide_actions_failure reply max_actions st tr e tr1 :
  consult_oracle reply max_actions st tr = (Raised e, tr1) →
  decide_actions (Some reply) max_actions st tr
  = simple_decision_logic max_actions st tr1.
Proof. intros H. unfold decide_actions, try_except. by rewrite H. Qed.

(** C3. With one open pull request, a budget of 3 and an empty tracker, the
    oracle answers a decision whose first action is valid and whose second
    action has no repository: the [try] block raises [KeyError] after the
    first action was registered, and [_decide_actions] returns the empty
    list, whereas the fallback on the same state and an empty tracker
    returns the review of the pull request. *)
Theorem oracle_failure_after_admission :
  (consult_oracle (Parsed half_valid_decision) 3 state_one_pr ∅).1
    = Raised KeyError ∧
  (decide_actions (Some (Parsed half_valid_decision)) 3 state_one_pr ∅).1
    = Ok [] ∧
  (simple_decision_logic 3 state_one_pr ∅).1 = Ok [review_pr_action pr12].
Proof. vm_compute. repeat split. Qed.

(** ** Slicing before deduplication *)

(** C10. There are a state, a budget and a tracker for which the fallback
    returns fewer actions than the budget although a pull request of the
    state is registered neither before nor after the call: the registered
    pull request in front of it used up the only examined slot. *)
Theorem fallback_slices_before_dedup :
  ∃ (st : State) (K : nat) (tr : Tracker) (acts : list dict) (it : Item),
    (simple_decision_logic (Z.of_nat K) st tr).1 = Ok acts ∧
    length acts < K ∧
    it ∈ prs_items st ∧
    (key_of "review_pr" it ∉ tr) ∧
    key_of "review_pr" it ∉ (simple_decision_logic (Z.of_nat K) st tr).2.
Proof.
  exists state_two_prs, 1, {[key_of "review_pr" pr12]}, [], pr13.
  split; [vm_compute; reflexivity|]. split; [simpl; lia|].
  split; [simpl; set_solver|].
  split; apply (bool_decide_eq_false_1 (_ ∈ _)); vm_compute; reflexivity.
Qed.

(** The same shortfall reached from an empty tracker through the oracle
    path: the first proposal is registered, the second one raises, and the
    fallback then examines only the first two pull requests. *)
Example shortfall_after_oracle_failure :
  (decide_actions (Some (Parsed half_valid_decision)) 2
     (mkState [pr12; pr13; mkItem "webapp" 14 "Third" "" false false]
        [] [] []) ∅).1
  = Ok [review_pr_action pr13].
Proof. vm_compute. reflexivity. Qed.

(** ** The number floor of the snapshot builder *)

Lemma split_tasks_elem floor all_tasks open_tasks processing_tasks o p t :
  split_tasks floor all_tasks open_tasks processing_tasks = (o, p) →
  (t ∈ o ↔ t ∈ open_tasks ∨
           (t ∈ all_tasks ∧ (floor ≤ it_number t)%Z
            ∧ it_has_processing_label t = false)) ∧
  (t ∈ p ↔ t ∈ processing_tasks ∨
           (t ∈ all_tasks ∧ (floor ≤ it_number t)%Z
            ∧ it_has_processing_label t = true)).
Proof.
  revert open_tasks processing_tasks.
  induction all_tasks as [|task rest IH]; intros open_tasks processing_tasks;
    simpl.
  - intros [= <- <-]. set_solver.
  - destruct (Z.ltb_spec (it_number task) floor) as [Hlt|Hge].
    + intros H. destruct (IH _ _ H) as [IH1 IH2]. rewrite IH1, IH2.
      split; split; intros [?|(Hin & ? & ?)]; auto.
      * right. set_solver.
      * apply elem_of_cons in Hin as [->|Hin]; [lia|]. right; auto.
      * right. set_solver.
      * apply elem_of_cons in Hin as [->|Hin]; [lia|]. right; auto.
    + destruct (it_has_processing_label task) eqn:Hp.
      * intros H. destruct (IH _ _ H) as [IH1 IH2]. rewrite IH1, IH2.
        split; split.
        -- intros [?|(Hin & ? & ?)]; auto. right. set_solver.
        -- intros [?|(Hin & ? & ?)]; auto.
           apply elem_of_cons in Hin as [->|Hin]; [congruence|]. right; auto.
        -- intros [[?| ->%list_elem_of_singleton]%elem_of_app|(Hin & ? & ?)];
             auto.
           ++ right. set_solver.
           ++ right. set_solver.
        -- intros [?|(Hin & ? & ?)]; [left; set_solver|].
           apply elem_of_cons in Hin as [->|Hin]; [left; set_solver|].
           right; auto.
      * intros H. destruct (IH _ _ H) as [IH1 IH2]. rewrite IH1, IH2.
        split; split.
        -- intros [[?| ->%list_elem_of_singleton]%elem_of_app|(Hin & ? & ?)];
             auto.
           ++ right. set_solver.
           ++ right. set_solver.
        -- intros [?|(Hin & ? & ?)]; [left; set_solver|].
           apply elem_of_cons in Hin as [->|Hin]; [left; set_solver|].
           right; auto.
        -- intros [?|(Hin & ? & ?)]; auto. right. set_solver.
        -- intros [?|(Hin & ? & ?)]; auto.
           apply elem_of_cons in Hin as [->|Hin]; [congruence|]. right; auto.
Qed.

Lemma scan_tasks_above_floor floor gh t :
  t ∈ tasks_open_items (scan_github_state floor gh) ∨
  t ∈ tasks_processing_items (scan_github_state floor gh) →
  t ∈ get_tasks gh ∧ (floor ≤ it_number t)%Z.
Proof.
  unfold scan_github_state.
  destruct (split_tasks floor (get_tasks gh) [] []) as [o p] eqn:E. simpl.
  destruct (split_tasks_elem _ _ _ _ _ _ t E) as [H1 H2].
  intros [H|H]; [apply H1 in H|apply H2 in H]; set_solver.
Qed.

Lemma taskless_epics_filter gh epics acc :
  taskless_epics gh epics acc
  = acc ++ filter (λ e, epic_has_tasks gh e = false) epics.
Proof.
  revert acc. induction epics as [|epic rest IH]; intros acc; simpl.
  - by rewrite app_nil_r.
  - rewrite filter_cons. destruct (epic_has_tasks gh epic) eqn:E.
    + rewrite decide_False by done. apply IH.
    + rewrite decide_True by done. rewrite IH, <- app_assoc. done.
Qed.

Lemma eq_str_true s x : eq_str s x = true → x = JStr s.
Proof.
  destruct x; try done. unfold eq_str. by intros ->%String.eqb_eq.
Qed.

Lemma resolved_task_above_floor floor gh a :
  resolved (scan_github_state floor gh) a → task_action_above_floor floor a.
Proof.
  intros (ty & repo & number & Hty & Hr & Hn & Hres) ty' Hty' Htask.
  assert (ty' = ty) as -> by congruence.
  unfold resolvable in Hres.
  destruct (collection (scan_github_state floor gh) ty) as [items|] eqn:Hc;
    [|done].
  apply existsb_exists in Hres as (it & Hin%list_elem_of_In & Ht).
  unfold targets in Ht. apply andb_prop in Ht as [_ Hnum].
  exists number, (it_number it). split; [done|]. split; [done|].
  assert (Hor : it ∈ tasks_open_items (scan_github_state floor gh) ∨
                it ∈ tasks_processing_items (scan_github_state floor gh)).
  { unfold collection in Hc.
    destruct (eq_str "review_pr" ty) eqn:E1.
    { apply eq_str_true in E1 as ->. by vm_compute in Htask. }
    destruct (eq_str "implement_task" ty); [left; congruence|].
    destruct (eq_str "decompose_epic" ty) eqn:E3.
    { apply eq_str_true in E3 as ->. by vm_compute in Htask. }
    destruct (eq_str "monitor_task" ty); [right; congruence|done]. }
  by destruct (scan_tasks_above_floor floor gh it Hor).
Qed.

(** C4, as the code has it. The floor applies to tasks only: every task of
    the snapshot, open or processing, has a number that is not below the
    floor, so no implement or monitor action returned by [_decide_actions]
    on that snapshot carries the number of a task below the floor; pull
    requests are all kept, and epics are kept unless a task references
    them. *)
Theorem floor_excludes_tasks (floor : Z) (gh : GitHubStore) :
  Forall (λ t, (floor ≤ it_number t)%Z)
    (tasks_open_items (scan_github_state floor gh)) ∧
  Forall (λ t, (floor ≤ it_number t)%Z)
    (tasks_processing_items (scan_github_state floor gh)) ∧
  prs_items (scan_github_state floor gh) = list_prs gh ∧
  epics_items (scan_github_state floor gh)
    = filter (λ e, epic_has_tasks gh e = false) (get_epics gh) ∧
  (∀ (ollama : option oracle_reply) (max_actions : Z) (tr : Tracker),
     ∃ acts tr',
       decide_actions ollama max_actions (scan_github_state floor gh) tr
         = (Ok acts, tr') ∧
       Forall (task_action_above_floor floor) acts).
Proof.
  split; [|split; [|split; [|split]]].
  - apply Forall_forall. intros t Ht.
    by destruct (scan_tasks_above_floor floor gh t (or_introl Ht)).
  - apply Forall_forall. intros t Ht.
    by destruct (scan_tasks_above_floor floor gh t (or_intror Ht)).
  - unfold scan_github_state. by destruct (split_tasks _ _ _ _).
  - unfold scan_github_state. destruct (split_tasks _ _ _ _). simpl.
    by rewrite taskless_epics_filter.
  - intros ollama max_actions tr.
    destruct (decide_actions_spec ollama max_actions
                (scan_github_state floor gh) tr)
      as (acts & tr' & keys & Hrun & _ & _ & _ & Hall).
    exists acts, tr'. split; [done|].
    eapply Forall_impl; [exact Hall|]. intros a. apply resolved_task_above_floor.
Qed.

(** C4, as stated, fails: with the configured floor of 50, pull request 12
    and epic 5 are in the snapshot, and the fallback acts on both. *)
Lemma floor_keeps_prs_and_epics :
  (it_number pr12 < ignore_old_tasks_before_number)%Z ∧
  pr12 ∈ prs_items
           (scan_github_state ignore_old_tasks_before_number sample_store) ∧
  (it_number epic5 < ignore_old_tasks_before_number)%Z ∧
  epic5 ∈ epics_items
            (scan_github_state ignore_old_tasks_before_number sample_store) ∧
  (decide_actions None max_parallel_actions
     (scan_github_state ignore_old_tasks_before_number sample_store) ∅).1
  = Ok [review_pr_action pr12; implement_task_action task55;
        decompose_epic_action epic5].
Proof.
  split; [done|]. split; [vm_compute; apply list_elem_of_here|].
  split; [done|]. split; [vm_compute; apply list_elem_of_here|].
  vm_compute. reflexivity.
Qed.

(** ** Retries and timeouts of the Claude agent *)

Lemma py_range_nat (n : nat) : py_range (Z.of_nat n) = Z.of_nat <$> seq 0 n.
Proof. unfold py_range. by rewrite Nat2Z.id. Qed.

Lemma py_range_split (n k : nat) :
  k ≤ n →
  py_range (Z.of_nat n)
  = py_range (Z.of_nat k) ++ (Z.of_nat <$> seq k (n - k)).
Proof.
  intros Hk. rewrite !py_range_nat, <- fmap_app. f_equal.
  replace n with (k + (n - k)) at 1 by lia. by rewrite seq_app.
Qed.

Lemma runs_app t1 t2 : runs (t1 ++ t2) = runs t1 + runs t2.
Proof. unfold runs. by rewrite List.filter_app, length_app. Qed.

Section RetryLoop.

(** One agent, one timeout and one behaviour of the executor. *)
Variables (self : ClaudeAgent) (timeout : Z) (exec : Z → attempt_outcome).

Lemma runs_retried_trace attempts :
  runs (retried_trace self exec attempts) = length attempts.
Proof.
  induction attempts as [|a rest IH]; [done|].
  unfold retried_trace in *. simpl. unfold runs in *. simpl. by rewrite IH.
Qed.

Lemma attempts_loop_retries pre rest trace :
  Forall (λ a, is_transient (exec a) = true
               ∧ (a < retry_attempts self - 1)%Z) pre →
  attempts_loop self timeout exec (pre ++ rest) trace
  = attempts_loop self timeout exec rest
      (trace ++ retried_trace self exec pre).
Proof.
  intros Hpre. revert trace.
  induction Hpre as [|a pre [Ht Hlt] _ IH]; intros trace.
  - simpl. by rewrite app_nil_r.
  - simpl. apply Z.ltb_lt in Hlt.
    destruct (exec a) as [el rc out parsed err| |el msg]; simpl in *.
    + destruct (parse_output out parsed) as [output|message].
      * destruct (rc =? 0)%Z; [done|]. rewrite Hlt, IH.
        by rewrite <- !app_assoc.
      * rewrite Hlt, IH. by rewrite <- !app_assoc.
    + done.
    + rewrite Hlt, IH. by rewrite <- !app_assoc.
Qed.

Lemma attempts_loop_count (a m : nat) trace :
  retry_attempts self = Z.of_nat (a + m) → runs trace = a →
  recorded_attempts
    (attempts_loop self timeout exec (Z.of_nat <$> seq a m) trace).1
  = Some (Z.of_nat
      (runs (attempts_loop self timeout exec (Z.of_nat <$> seq a m) trace).2)).
Proof.
  revert a trace. induction m as [|m IH]; intros a trace Hn Ha.
  - simpl. rewrite Hn, Ha. unfold recorded_attempts. simpl. f_equal. lia.
  - simpl.
    assert (Hnext : ∀ tr', runs tr' = S a →
      recorded_attempts
        (attempts_loop self timeout exec (Z.of_nat <$> seq (S a) m) tr').1
      = Some (Z.of_nat (runs
          (attempts_loop self timeout exec (Z.of_nat <$> seq (S a) m) tr').2))).
    { intros tr' Htr'. apply IH; [rewrite Hn; f_equal; lia|done]. }
    assert (Hrun : ∀ s, runs (trace ++ [RunClaude (Z.of_nat a) s]) = S a).
    { intros s. rewrite runs_app, Ha. unfold runs. simpl. lia. }
    assert (Hsleep : ∀ s d,
      runs ((trace ++ [RunClaude (Z.of_nat a) s]) ++ [Sleep d]) = S a).
    { intros s d. rewrite runs_app, Hrun. unfold runs. simpl. lia. }
    destruct (exec (Z.of_nat a)) as [el rc out parsed err| |el msg].
    + destruct (parse_output out parsed) as [output|message].
      * destruct (rc =? 0)%Z.
        { simpl. rewrite Hrun. unfold recorded_attempts. simpl. f_equal. lia. }
        destruct (Z.ltb_spec (Z.of_nat a) (retry_attempts self - 1)).
        -- by apply Hnext.
        -- simpl. rewrite Hrun. unfold recorded_attempts. simpl. f_equal. lia.
      * destruct (Z.ltb_spec (Z.of_nat a) (retry_attempts self - 1)).
        -- by apply Hnext.
        -- simpl. rewrite Hrun. unfold recorded_attempts. simpl. f_equal. lia.
    + simpl. rewrite Hrun. unfold recorded_attempts. simpl. f_equal. lia.
    + destruct (Z.ltb_spec (Z.of_nat a) (retry_attempts self - 1)).
      * by apply Hnext.
      * simpl. rewrite Hrun. unfold recorded_attempts. simpl. f_equal. lia.
Qed.

End RetryLoop.

Lemma run_claude_command_count (n : nat) (delay timeout : Z)
    (timeout_arg : option Z) (exec : Z → attempt_outcome) :
  recorded_attempts
    (run_claude_command (mkAgent timeout (Z.of_nat n) delay) timeout_arg exec).1
  = Some (Z.of_nat (runs
      (run_claude_command (mkAgent timeout (Z.of_nat n) delay)
         timeout_arg exec).2)).
Proof.
  unfold run_claude_command. cbn [retry_attempts]. rewrite py_range_nat.
  by apply attempts_loop_count.
Qed.

Lemma retried_prefix (n k : nat) (delay timeout : Z)
    (exec : Z → attempt_outcome) :
  k < n →
  (∀ j, j < k → is_transient (exec (Z.of_nat j)) = true) →
  Forall (λ a, is_transient (exec a) = true
               ∧ (a < retry_attempts (mkAgent timeout (Z.of_nat n) delay) - 1)%Z)
    (py_range (Z.of_nat k)).
Proof.
  intros Hk Hall. rewrite py_range_nat. apply Forall_fmap, Forall_forall.
  intros j Hj%elem_of_seq. simpl. split; [apply Hall; lia|lia].
Qed.

(** C6. When attempt [k] is the first to time out, the attempts before it
    having failed otherwise, [_run_claude_command] returns one result: the
    dict with status ["failed"], the error "Command timed out after
    <timeout> seconds" for the timeout in force, and [k + 1] attempts.  The
    timed-out call is the last call made: the calls are the [k] failed
    attempts, each followed by the delay, then the timed-out one, and the
    remaining attempts are not run, whatever they would do. *)
Theorem timeout_is_terminal (n k : nat) (delay timeout : Z)
    (timeout_arg : option Z) (exec : Z → attempt_outcome) :
  k < n →
  exec (Z.of_nat k) = TimeoutExpired →
  (∀ j, j < k → is_transient (exec (Z.of_nat j)) = true) →
  run_claude_command (mkAgent timeout (Z.of_nat n) delay) timeout_arg exec
  = ([("status", JStr "failed");
      ("error",
       JStr ("Command timed out after "
             ++ str_of_int (default timeout timeout_arg) ++ " seconds"));
      ("attempts", JInt (Z.of_nat k + 1))],
     retried_trace (mkAgent timeout (Z.of_nat n) delay) exec
       (py_range (Z.of_nat k))
     ++ [RunClaude (Z.of_nat k) (default timeout timeout_arg)]) ∧
  runs (run_claude_command (mkAgent timeout (Z.of_nat n) delay)
          timeout_arg exec).2 = S k ∧
  is_success (run_claude_command (mkAgent timeout (Z.of_nat n) delay)
                timeout_arg exec).1 = false.
Proof.
  intros Hk Hto Hall.
  assert (Hrun :
    run_claude_command (mkAgent timeout (Z.of_nat n) delay) timeout_arg exec
    = (timeout_result (default timeout timeout_arg) (Z.of_nat k),
       retried_trace (mkAgent timeout (Z.of_nat n) delay) exec
         (py_range (Z.of_nat k))
       ++ [RunClaude (Z.of_nat k) (default timeout timeout_arg)])).
  { unfold run_claude_command. simpl.
    rewrite (py_range_split n k) by lia.
    rewrite attempts_loop_retries by by apply retried_prefix.
    destruct (n - k) as [|m] eqn:Hm; [lia|].
    simpl. by rewrite Hto. }
  rewrite Hrun. split; [done|]. split; [|done].
  simpl. rewrite runs_app, runs_retried_trace, py_range_nat, length_fmap,
    length_seq.
  unfold runs. simpl. lia.
Qed.

Lemma timeout_is_terminal_witness :
  run_claude_command claude None fails_then_times_out
  = ([("status", JStr "failed");
      ("error", JStr "Command timed out after 600 seconds");
      ("attempts", JInt 2)],
     [RunClaude 0 40; Sleep 30; RunClaude 1 600]) ∧
  runs (run_claude_command claude None fails_then_times_out).2 = 2 ∧
  is_success (run_claude_command claude None fails_then_times_out).1 = false.
Proof.
  apply (timeout_is_terminal 2 1 30 600 None fails_then_times_out).
  - lia.
  - reflexivity.
  - intros j Hj. assert (j = 0) as -> by lia. reflexivity.
Defined.



(** ** The join barrier *)

Lemma join_bounds timeout th now :
  (now ≤ join timeout th now)%Z ∧
  (join timeout th now ≤ now + Z.max 0 timeout)%Z ∧
  (join timeout th now ≤ Z.max now (finish th))%Z.
Proof.
  unfold join. destruct (Z.leb_spec (finish th) now); lia.
Qed.

Lemma join_all_bounds timeout ths now :
  (now ≤ join_all timeout ths now)%Z ∧
  (join_all timeout ths now
   ≤ now + Z.of_nat (length ths) * Z.max 0 timeout)%Z ∧
  (join_all timeout ths now ≤ Z.max now (slowest ths))%Z.
Proof.
  revert now. induction ths as [|th rest IH]; intros now.
  - simpl. lia.
  - cbn [join_all slowest foldr length].
    destruct (IH (join timeout th now)) as (I1 & I2 & I3).
    destruct (join_bounds timeout th now) as (J1 & J2 & J3).
    fold (slowest rest). nia.
Qed.

(** C5, as the code has it. The barrier joins the threads one after the
    other, each for at most the timeout: it returns no later than [N] times
    the timeout after it started, and no later than the end of the slowest
    worker. *)
Theorem barrier_wait_bounds (self : ClaudeAgent) (action_timeout : Z)
    (execs : nat → Z → attempt_outcome) (actions : list dict) :
  (0 ≤ returned_at (execute_actions self action_timeout execs actions))%Z ∧
  (returned_at (execute_actions self action_timeout execs actions)
   ≤ Z.of_nat (length actions) * Z.max 0 action_timeout)%Z ∧
  (returned_at (execute_actions self action_timeout execs actions)
   ≤ slowest (threads (execute_actions self action_timeout execs actions)))%Z.
Proof.
  unfold execute_actions. cbn [returned_at threads].
  set (ths := imap _ actions).
  destruct (join_all_bounds action_timeout ths 0) as (H1 & H2 & H3).
  assert (length ths = length actions) as <- by apply length_imap.
  assert (0 ≤ slowest ths)%Z.
  { clear. induction ths; simpl; [done|]. fold (slowest ths). lia. }
  lia.
Qed.

(** C5, as stated, fails: with the configured timeout of 600 seconds and two
    review actions whose two attempts each fail after 500 seconds, each
    worker ends after 1030 seconds; the first join gives up at 600 and the
    second one returns at 1030. *)
Lemma barrier_exceeds_one_timeout :
  returned_at (execute_actions claude action_timeout (λ _, always_fails)
                 two_reviews) = 1030%Z ∧
  (action_timeout < 1030)%Z.
Proof. split; reflexivity. Qed.

(** With four attempts allowed, three workers that keep failing for 590
    seconds per attempt hold the barrier for three timeouts. *)
Example barrier_reaches_sum :
  returned_at
    (execute_actions (mkAgent 600 4 30) 600
       (λ _ _, Completed 590 1 "" DecodeError "boom")
       [review_pr_action pr12; review_pr_action pr13;
        decompose_epic_action epic5]) = (3 * 600)%Z.
Proof. reflexivity. Qed.

(** ** Late completions *)

Lemma insert_thread_perm th l : insert_thread th l ≡ₚ th :: l.
Proof.
  induction l as [|x l IH]; simpl; [done|].
  destruct (finish th <=? finish x)%Z; [done|].
  rewrite IH. apply Permutation_swap.
Qed.

Lemma insert_thread_sorted th l :
  StronglySorted by_finish l → StronglySorted by_finish (insert_thread th l).
Proof.
  induction 1 as [|x l Hs IH Hall]; simpl.
  - repeat constructor.
  - destruct (Z.leb_spec (finish th) (finish x)) as [Hle|Hgt].
    + constructor; [by constructor|]. constructor; [done|].
      eapply Forall_impl; [exact Hall|]. unfold by_finish. intros; lia.
    + constructor; [done|]. rewrite insert_thread_perm.
      constructor; [unfold by_finish; lia|done].
Qed.

Lemma completion_order_sorted ths :
  StronglySorted by_finish (completion_order ths).
Proof.
  induction ths as [|th ths IH]; simpl; [constructor|].
  by apply insert_thread_sorted.
Qed.

Lemma completion_order_perm ths : completion_order ths ≡ₚ ths.
Proof.
  induction ths as [|th ths IH]; simpl; [done|].
  by rewrite insert_thread_perm, IH.
Qed.

(** In a list ordered by end time, the threads ended by [t2] are those ended
    by [t1] followed by those ending after [t1] and by [t2]. *)
Lemma ended_split (l : list Thread) (t1 t2 : Z) :
  StronglySorted by_finish l → (t1 ≤ t2)%Z →
  List.filter (λ th, (finish th <=? t2)%Z) l
  = List.filter (λ th, (finish th <=? t1)%Z) l
    ++ List.filter (λ th, (t1 <? finish th)%Z && (finish th <=? t2)%Z) l.
Proof.
  intros Hs Ht. induction Hs as [|x l Hs IH Hall]; [done|].
  simpl. destruct (Z.leb_spec (finish x) t1) as [H1|H1].
  - destruct (Z.leb_spec (finish x) t2); [|lia].
    destruct (Z.ltb_spec t1 (finish x)); [lia|]. simpl. by rewrite IH.
  - assert (Hnone : List.filter (λ th, (finish th <=? t1)%Z) l = []).
    { clear IH Hs. induction Hall as [|y l Hy _ IHl]; [done|]. simpl.
      unfold by_finish in Hy.
      destruct (Z.leb_spec (finish y) t1); [lia|done]. }
    rewrite Hnone in IH. simpl in IH. rewrite Hnone, IH. simpl.
    destruct (Z.ltb_spec t1 (finish x)); [|lia]. simpl. done.
Qed.

Lemma results_at_split ths (t1 t2 : Z) :
  (t1 ≤ t2)%Z →
  results_at ths t2
  = results_at ths t1
    ++ omap appended
         (List.filter (λ th, (t1 <? finish th)%Z && (finish th <=? t2)%Z)
            (completion_order ths)).
Proof.
  intros Ht. unfold results_at.
  rewrite (ended_split _ t1 t2) by (apply completion_order_sorted || done).
  apply omap_app.
Qed.

(** C9, as the code has it. A worker that ends after the barrier has
    returned appends its result to the list object that was returned: read
    once that worker has ended, the list is the list as it was at the
    return, followed by further results, among which is that of the late
    worker. *)
Theorem late_completion_appends (self : ClaudeAgent) (action_timeout : Z)
    (execs : nat → Z → attempt_outcome) (actions : list dict)
    (th : Thread) (r : dict) :
  th ∈ threads (execute_actions self action_timeout execs actions) →
  appended th = Some r →
  (returned_at (execute_actions self action_timeout execs actions)
   < finish th)%Z →
  ∃ late,
    returned_list_at (execute_actions self action_timeout execs actions)
      (finish th)
    = returned_list_at (execute_actions self action_timeout execs actions)
        (returned_at (execute_actions self action_timeout execs actions))
      ++ late ∧
    r ∈ late.
Proof.
  set (e := execute_actions self action_timeout execs actions).
  intros Hin Hr Hlate. unfold returned_list_at.
  rewrite (results_at_split (threads e) (returned_at e) (finish th)) by lia.
  eexists. split; [reflexivity|].
  apply list_elem_of_omap. exists th. split; [|done].
  apply list_elem_of_In, List.filter_In. split.
  - apply list_elem_of_In. by rewrite completion_order_perm.
  - apply andb_true_intro. split; [by apply Z.ltb_lt|by apply Z.leb_le].
Qed.

(** C9, as stated, fails: the barrier returns after 610 seconds with one
    result in the list; the second worker ends after 1030 seconds, and the
    returned list then holds two results. *)
Lemma late_completion_alters_returned_list :
  returned_at late_run = 610%Z ∧
  length (returned_list_at late_run 610) = 1 ∧
  length (returned_list_at late_run 1030) = 2 ∧
  returned_list_at late_run 1030
  = returned_list_at late_run 610 ++ [late_result].
Proof. vm_compute. repeat split. Qed.

Lemma late_completion_appends_witness :
  ∃ late,
    returned_list_at late_run 1030
    = returned_list_at late_run (returned_at late_run) ++ late ∧
    late_result ∈ late.
Proof.
  apply (late_completion_appends claude action_timeout quick_then_slow
           two_reviews late_thread late_result).
  - vm_compute. apply list_elem_of_further, list_elem_of_here.
  - reflexivity.
  - reflexivity.
Defined.

(** * Further properties *)

(** ** The task lists of the snapshot *)

Lemma split_tasks_filter floor all_tasks open_tasks processing_tasks :
  split_tasks floor all_tasks open_tasks processing_tasks
  = (open_tasks
     ++ List.filter (λ t, (floor <=? it_number t)%Z
                          && negb (it_has_processing_label t)) all_tasks,
     processing_tasks
     ++ List.filter (λ t, (floor <=? it_number t)%Z
                          && it_has_processing_label t) all_tasks).
Proof.
  revert open_tasks processing_tasks.
  induction all_tasks as [|task rest IH]; intros open_tasks processing_tasks.
  - simpl. by rewrite !app_nil_r.
  - simpl. destruct (Z.ltb_spec (it_number task) floor) as [Hlt|Hge].
    + destruct (Z.leb_spec floor (it_number task)); [lia|]. simpl. apply IH.
    + destruct (Z.leb_spec floor (it_number task)); [|lia]. simpl.
      destruct (it_has_processing_label task); simpl; rewrite IH.
      * by rewrite <- app_assoc.
      * by rewrite <- app_assoc.
Qed.

(** X1. The open tasks of the snapshot are the tasks at or above the floor
    without the processing label, and the processing tasks are those at or
    above the floor with it, both in the order of [get_tasks]. *)
Theorem scan_tasks_partition (floor : Z) (gh : GitHubStore) :
  tasks_open_items (scan_github_state floor gh)
  = List.filter (λ t, (floor <=? it_number t)%Z
                      && negb (it_has_processing_label t)) (get_tasks gh) ∧
  tasks_processing_items (scan_github_state floor gh)
  = List.filter (λ t, (floor <=? it_number t)%Z
                      && it_has_processing_label t) (get_tasks gh).
Proof.
  unfold scan_github_state. rewrite split_tasks_filter. simpl. done.
Qed.

(** ** The reference scan of [epic_has_tasks] *)

Lemma prefix_occurs (s1 s2 : string) :
  String.prefix s1 s2 = true ↔ ∃ suf, s2 = (s1 ++ suf)%string.
Proof.
  revert s1. induction s2 as [|c' s2 IH]; intros [|c s1]; simpl.
  - split; [intros _; by exists ""%string|done].
  - split; [done|]. by intros [? ?].
  - split; [intros _; by eexists|done].
  - destruct (Ascii.ascii_dec c c') as [->|Hne].
    + rewrite IH. split; intros [suf Hs]; exists suf.
      * by rewrite Hs.
      * by injection Hs.
    + split; [done|]. intros [suf Hs]. injection Hs. congruence.
Qed.

Lemma contains_occurs (needle hay : string) :
  contains needle hay = true ↔ occurs_in needle hay.
Proof.
  unfold occurs_in. induction hay as [|c hay IH]; cbn [contains].
  - rewrite orb_false_r, prefix_occurs. split.
    + intros [suf Hs]. by exists ""%string, suf.
    + intros (pre & suf & Hs). destruct pre; [by exists suf|done].
  - rewrite orb_true_iff, prefix_occurs, IH. split.
    + intros [[suf Hs]|(pre & suf & Hs)].
      * by exists ""%string, suf.
      * exists (String c pre), suf. by rewrite Hs.
    + intros (pre & suf & Hs). destruct pre as [|c' pre].
      * left. by exists suf.
      * right. exists pre, suf. by injection Hs.
Qed.

Lemma references_epic_iff ref repo tasks :
  references_epic ref repo tasks = true ↔
  ∃ task, task ∈ tasks ∧ it_repo task = repo ∧
          (occurs_in ref (it_body task) ∨ occurs_in ref (it_title task)).
Proof.
  induction tasks as [|task rest IH]; simpl.
  - split; [done|]. intros (t & Hin & _). by apply elem_of_nil in Hin.
  - destruct (String.eqb_spec (it_repo task) repo) as [Hr|Hr].
    + destruct (contains ref (it_body task)) eqn:Hb.
      { split; [|done]. intros _. exists task. split; [apply list_elem_of_here|].
        split; [done|]. left. by apply contains_occurs. }
      destruct (contains ref (it_title task)) eqn:Ht.
      { split; [|done]. intros _. exists task. split; [apply list_elem_of_here|].
        split; [done|]. right. by apply contains_occurs. }
      rewrite IH. split.
      * intros (t & Hin & ?). exists t. split; [by apply list_elem_of_further|done].
      * intros (t & [->|Hin]%elem_of_cons & Hrepo & Hocc).
        -- destruct Hocc as [Ho|Ho]; apply contains_occurs in Ho; congruence.
        -- by exists t.
    + rewrite IH. split.
      * intros (t & Hin & ?). exists t. split; [by apply list_elem_of_further|done].
      * intros (t & [->|Hin]%elem_of_cons & Hrepo & Hocc); [done|by exists t].
Qed.

(** X2. An epic counts as having tasks exactly when some task of its
    repository has the text of the epic's reference, a hash sign followed by
    its number, somewhere in its body or title, whatever surrounds it. *)
Theorem epic_has_tasks_iff (gh : GitHubStore) (epic : Item) :
  epic_has_tasks gh epic = true ↔
  ∃ task, task ∈ get_tasks gh ∧ it_repo task = it_repo epic ∧
          (occurs_in (epic_ref epic) (it_body task)
           ∨ occurs_in (epic_ref epic) (it_title task)).
Proof. unfold epic_has_tasks. apply references_epic_iff. Qed.

(** A task about issue 55 hides epic 5 of the same repository. *)
Example epic_has_tasks_longer_number :
  epic_has_tasks
    (mkStore [] [mkItem "infrastructure" 70 "Follow-up of #55" "" false false]
       [epic5]) epic5 = true.
Proof. reflexivity. Qed.

(** ** More on the deterministic fallback *)

Lemma scan_tier_tracker ty mk max_actions items actions tr :
  ∃ kept ex,
    scan_tier ty mk max_actions items actions tr
    = (Ok ex, list_to_set (key_of ty <$> kept) ∪ tr) ∧
    exit_actions ex = actions ++ (mk <$> kept).
Proof.
  revert actions tr. induction items as [|it rest IH]; intros actions tr.
  - exists [], (Fallthrough actions). simpl. rewrite app_nil_r.
    split; [|done]. unfold ret. f_equal. set_solver.
  - simpl. unfold bind at 1. rewrite can_process_action_probe.
    destruct (decide (key_of ty it ∈ tr)) as [Hin|Hnin]; [apply IH|].
    destruct (max_actions <=? Z.of_nat (length (actions ++ [mk it])))%Z.
    + exists [it], (Return (actions ++ [mk it])). simpl. split; [|done].
      unfold ret. f_equal. set_solver.
    + destruct (IH (actions ++ [mk it]) ({[key_of ty it]} ∪ tr))
        as (kept & ex & Hrun & Hact).
      exists (it :: kept), ex. split.
      * rewrite Hrun. f_equal. rewrite fmap_cons. set_solver.
      * rewrite Hact, <- app_assoc. done.
Qed.

Lemma simple_decision_logic_tracker max_actions st tr :
  ∃ ps ts es,
    simple_decision_logic max_actions st tr
    = (Ok ((review_pr_action <$> ps) ++ (implement_task_action <$> ts)
           ++ (decompose_epic_action <$> es)),
       list_to_set ((key_of "review_pr" <$> ps)
                    ++ (key_of "implement_task" <$> ts)
                    ++ (key_of "decompose_epic" <$> es)) ∪ tr).
Proof.
  unfold simple_decision_logic.
  destruct (scan_tier_tracker "review_pr" review_pr_action max_actions
              (slice_to max_actions (prs_items st)) [] tr)
    as (ps & ex1 & Hrun1 & Hact1).
  unfold bind at 1. rewrite Hrun1. simpl in Hact1.
  destruct ex1 as [a1|a1]; simpl in Hact1; subst a1; cycle 1.
  { exists ps, [], []. simpl. rewrite !app_nil_r. done. }
  destruct (scan_tier_tracker "implement_task" implement_task_action
              max_actions
              (slice_to (max_actions
                         - Z.of_nat (length (review_pr_action <$> ps)))
                 (tasks_open_items st)) (review_pr_action <$> ps)
              (list_to_set (key_of "review_pr" <$> ps) ∪ tr))
    as (ts & ex2 & Hrun2 & Hact2).
  unfold bind at 1. rewrite Hrun2.
  destruct ex2 as [a2|a2]; simpl in Hact2; subst a2; cycle 1.
  { exists ps, ts, []. simpl. rewrite !app_nil_r. unfold ret. f_equal.
    rewrite list_to_set_app_L. set_solver. }
  destruct (scan_tier_tracker "decompose_epic" decompose_epic_action
              max_actions
              (slice_to (max_actions
                         - Z.of_nat (length ((review_pr_action <$> ps)
                                      ++ (implement_task_action <$> ts))))
                 (epics_items st))
              ((review_pr_action <$> ps) ++ (implement_task_action <$> ts))
              (list_to_set (key_of "implement_task" <$> ts)
               ∪ (list_to_set (key_of "review_pr" <$> ps) ∪ tr)))
    as (es & ex3 & Hrun3 & Hact3).
  unfold bind at 1. rewrite Hrun3.
  exists ps, ts, es.
  assert (Htr : list_to_set (key_of "decompose_epic" <$> es)
                ∪ (list_to_set (key_of "implement_task" <$> ts)
                   ∪ (list_to_set (key_of "review_pr" <$> ps) ∪ tr))
              = list_to_set ((key_of "review_pr" <$> ps)
                             ++ (key_of "implement_task" <$> ts)
                             ++ (key_of "decompose_epic" <$> es)) ∪ tr).
  { rewrite !list_to_set_app_L. set_solver. }
  destruct ex3 as [a3|a3]; simpl in Hact3; subst a3; unfold ret;
    by rewrite Htr, <- app_assoc.
Qed.

(** X3. The tracker left by the fallback is the tracker it started from
    together with the keys of the actions it returns, and nothing else. *)
Theorem fallback_registers_returned_keys (max_actions : Z) (st : State)
    (tr : Tracker) :
  ∃ acts keys,
    simple_decision_logic max_actions st tr = (Ok acts, list_to_set keys ∪ tr) ∧
    action_key <$> acts = Some <$> keys.
Proof.
  destruct (simple_decision_logic_tracker max_actions st tr)
    as (ps & ts & es & Hrun).
  eexists _, _. split; [exact Hrun|]. apply keys_of_fallback.
Qed.

(** X4. The fallback only builds review, implement and decompose actions,
    and the processing tasks of the state play no part in its result. *)
Theorem fallback_never_monitors (max_actions : Z) (st : State) (tr : Tracker) :
  (∃ acts tr',
     simple_decision_logic max_actions st tr = (Ok acts, tr') ∧
     Forall (λ a, ∃ ty, dict_get "type" a = Some ty ∧ ty ∈ fallback_types)
       acts) ∧
  (∀ processing : list Item,
     simple_decision_logic max_actions
       (mkState (prs_items st) (tasks_open_items st) processing
          (epics_items st)) tr
     = simple_decision_logic max_actions st tr).
Proof.
  split; [|done].
  destruct (simple_decision_logic_tracker max_actions st tr)
    as (ps & ts & es & Hrun).
  eexists _, _. split; [exact Hrun|].
  rewrite !Forall_app, !Forall_fmap. unfold fallback_types.
  repeat split; apply Forall_forall; intros it _; eexists;
    (split; [reflexivity|]); set_solver.
Qed.

Lemma scan_tier_fresh ty mk (K : nat) items actions tr :
  NoDup (key_of ty <$> items) →
  (∀ it, it ∈ items → key_of ty it ∉ tr) →
  length actions + length items ≤ K →
  ∃ ex,
    scan_tier ty mk (Z.of_nat K) items actions tr
    = (Ok ex, list_to_set (key_of ty <$> items) ∪ tr) ∧
    exit_actions ex = actions ++ (mk <$> items) ∧
    (∀ a, ex = Return a → length a = K).
Proof.
  revert actions tr. induction items as [|it rest IH];
    intros actions tr Hnd Hfresh Hlen.
  - exists (Fallthrough actions). simpl. rewrite app_nil_r.
    split; [unfold ret; f_equal; set_solver|]. split; [done|]. done.
  - simpl. unfold bind at 1. rewrite can_process_action_probe.
    rewrite fmap_cons in Hnd. apply NoDup_cons in Hnd as [Hnotin Hnd].
    rewrite decide_False by (apply Hfresh; apply list_elem_of_here).
    simpl in Hlen.
    destruct (Z.leb_spec (Z.of_nat K)
                (Z.of_nat (length (actions ++ [mk it])))) as [Hge|Hlt];
      rewrite length_app in *; simpl in *.
    + assert (rest = []) as -> by (destruct rest; [done|simpl in Hlen; lia]).
      exists (Return (actions ++ [mk it])). split; [|split; [done|]].
      * unfold ret. f_equal. set_solver.
      * intros a [= <-]. rewrite length_app. simpl. lia.
    + destruct (IH (actions ++ [mk it]) ({[key_of ty it]} ∪ tr)) as
        (ex & Hrun & Hact & Hret).
      * done.
      * intros it' Hin' [Heq%elem_of_singleton|Hin]%elem_of_union.
        -- apply Hnotin. rewrite <- Heq. apply list_elem_of_fmap.
           by exists it'.
        -- eapply Hfresh; [|exact Hin]. by apply list_elem_of_further.
      * rewrite length_app. simpl. lia.
      * exists ex. split; [|split; [|done]].
        -- rewrite Hrun. f_equal. set_solver.
        -- rewrite Hact, <- app_assoc. done.
Qed.

Lemma NoDup_keys_take ty (items : list Item) n :
  NoDup (key_of ty <$> items) → NoDup (key_of ty <$> take n items).
Proof.
  intros H. rewrite fmap_take.
  exact (sublist_NoDup _ _ H (sublist_take _ _)).
Qed.

Lemma fresh_tier (ty ty' : string) (seen : list Item) (tr : Tracker) it :
  ty ≠ ty' → key_of ty it ∉ tr →
  key_of ty it ∉ (list_to_set (key_of ty' <$> seen) ∪ tr : Tracker).
Proof.
  intros Hne Hfresh [Hin|Hin]%elem_of_union; [|done].
  apply elem_of_list_to_set, list_elem_of_fmap in Hin as (y & Heq & _).
  unfold key_of, mk_key in Heq. congruence.
Qed.

(** X5. When the candidates of each tier have pairwise distinct keys and
    none of them is registered, the fallback returns the first [K]
    candidates in tier order: pull requests, then open tasks, then
    epics. *)
Theorem fallback_fills_budget (K : nat) (st : State) (tr : Tracker) :
  NoDup (key_of "review_pr" <$> prs_items st) →
  NoDup (key_of "implement_task" <$> tasks_open_items st) →
  NoDup (key_of "decompose_epic" <$> epics_items st) →
  (∀ it, it ∈ prs_items st → key_of "review_pr" it ∉ tr) →
  (∀ it, it ∈ tasks_open_items st → key_of "implement_task" it ∉ tr) →
  (∀ it, it ∈ epics_items st → key_of "decompose_epic" it ∉ tr) →
  (simple_decision_logic (Z.of_nat K) st tr).1 = Ok (take K (candidates st)).
Proof.
  intros N1 N2 N3 F1 F2 F3.
  assert (Hin : ∀ (l : list Item) n it, it ∈ take n l → it ∈ l).
  { intros l n it H. eapply elem_of_sublist; [exact H|apply sublist_take]. }
  unfold simple_decision_logic, candidates.
  rewrite slice_to_nat.
  destruct (scan_tier_fresh "review_pr" review_pr_action K
              (take K (prs_items st)) [] tr) as (ex1 & Hrun1 & Hact1 & Hret1).
  { by apply NoDup_keys_take. }
  { intros it H. eapply F1, Hin, H. }
  { simpl. rewrite length_take. lia. }
  unfold bind at 1. rewrite Hrun1. simpl in Hact1.
  set (A := review_pr_action <$> prs_items st).
  set (B := implement_task_action <$> tasks_open_items st).
  set (C := decompose_epic_action <$> epics_items st).
  assert (HA : review_pr_action <$> take K (prs_items st) = take K A).
  { unfold A. by rewrite fmap_take. }
  destruct ex1 as [a1|a1]; simpl in Hact1; subst a1; cycle 1.
  { simpl. specialize (Hret1 _ eq_refl). rewrite HA in *.
    rewrite length_take in Hret1.
    rewrite take_app_le by lia. done. }
  rewrite HA, length_take.
  replace (Z.of_nat K - Z.of_nat (K `min` length A))%Z
    with (Z.of_nat (K - length A)) by lia.
  rewrite slice_to_nat.
  destruct (scan_tier_fresh "implement_task" implement_task_action K
              (take (K - length A) (tasks_open_items st)) (take K A)
              (list_to_set (key_of "review_pr" <$> take K (prs_items st)) ∪ tr))
    as (ex2 & Hrun2 & Hact2 & Hret2).
  { by apply NoDup_keys_take. }
  { intros it H. apply fresh_tier; [discriminate|]. eapply F2, Hin, H. }
  { rewrite !length_take. lia. }
  unfold bind at 1. rewrite Hrun2.
  assert (HB : implement_task_action <$> take (K - length A)
                 (tasks_open_items st) = take (K - length A) B).
  { unfold B. by rewrite fmap_take. }
  rewrite HB in *.
  destruct ex2 as [a2|a2]; simpl in Hact2; subst a2; cycle 1.
  { simpl. specialize (Hret2 _ eq_refl).
    rewrite length_app, !length_take in Hret2.
    rewrite !take_app.
    replace (K - length A - length B) with 0 by lia.
    by rewrite take_0, app_nil_r. }
  rewrite length_app, !length_take.
  replace (Z.of_nat K
           - Z.of_nat (K `min` length A + (K - length A) `min` length B))%Z
    with (Z.of_nat (K - length A - length B)) by lia.
  rewrite slice_to_nat.
  destruct (scan_tier_fresh "decompose_epic" decompose_epic_action K
              (take (K - length A - length B) (epics_items st))
              (take K A ++ take (K - length A) B)
              (list_to_set (key_of "implement_task"
                              <$> take (K - length A) (tasks_open_items st))
               ∪ (list_to_set (key_of "review_pr" <$> take K (prs_items st))
                  ∪ tr)))
    as (ex3 & Hrun3 & Hact3 & _).
  { by apply NoDup_keys_take. }
  { intros it H. apply fresh_tier; [discriminate|].
    apply fresh_tier; [discriminate|]. eapply F3, Hin, H. }
  { rewrite length_app, !length_take. lia. }
  unfold bind at 1. rewrite Hrun3.
  assert (Hall : take K (A ++ B ++ C)
                 = (take K A ++ take (K - length A) B)
                   ++ (decompose_epic_action
                         <$> take (K - length A - length B) (epics_items st))).
  { rewrite fmap_take. fold C. rewrite !take_app, <- app_assoc. done. }
  destruct ex3 as [a3|a3]; simpl in Hact3; subst a3; simpl; by rewrite Hall.
Qed.

Lemma fallback_fills_budget_witness :
  (simple_decision_logic 3 busy_state ∅).1
  = Ok [review_pr_action pr12; review_pr_action pr13;
        implement_task_action task55].
Proof.
  apply (fallback_fills_budget 3 busy_state ∅).
  - apply (bool_decide_unpack (NoDup _)). vm_compute. exact I.
  - apply (bool_decide_unpack (NoDup _)). vm_compute. exact I.
  - apply (bool_decide_unpack (NoDup _)). vm_compute. exact I.
  - intros it _. apply not_elem_of_empty.
  - intros it _. apply not_elem_of_empty.
  - intros it _. apply not_elem_of_empty.
Defined.

(** ** More on the oracle path *)

Lemma dict_get_set_eq k v d : dict_get k (dict_set k v d) = Some v.
Proof.
  induction d as [|[k0 v0] d IH]; simpl.
  - by rewrite String.eqb_refl.
  - destruct (String.eqb_spec k k0) as [->|Hne]; simpl.
    + by rewrite String.eqb_refl.
    + destruct (String.eqb_spec k k0); [done|exact IH].
Qed.

Lemma enrich_action_enriches action st tr e tr' :
  enrich_action action st tr = (Ok (Some e), tr') → enriches st action e.
Proof.
  unfold enrich_action, bind at 1, subscript.
  destruct action as [| | | | |d]; unfold raise; try congruence.
  destruct (dict_get "type" d) as [ty|] eqn:Hty; [unfold ret at 1|congruence].
  assert (Hres : ∀ items it t1 e',
    collection st ty = Some items →
    find_item (JObj d) items tr = (Ok (Some it), t1) →
    (∀ k, k ≠ "title"%string → k ≠ "body"%string →
          dict_get k e' = dict_get k d) →
    dict_get "title" e' = Some (JStr (it_title it)) →
    dict_get "body" e'
    = (if eq_str "implement_task" ty || eq_str "decompose_epic" ty
       then Some (JStr (it_body it)) else dict_get "body" d) →
    enriches st (JObj d) e').
  { intros items it t1 e' Hc F Hk Ht Hb.
    apply find_item_found in F as (d' & r & n & [= <-] & Hr & Hn & Hin & Htg).
    by exists d, ty, items, it, r, n. }
  unfold collection in Hres.
  destruct (eq_str "review_pr" ty) eqn:E1.
  { unfold bind.
    destruct (find_item (JObj d) (prs_items st) tr) as [[[it|]|ex] t1] eqn:F;
      unfold ret; try congruence.
    intros [= <- <-]. apply eq_str_true in E1 as ->.
    eapply Hres; [done|exact F|..].
    - intros k Hk1 Hk2. by rewrite dict_get_set_ne.
    - apply dict_get_set_eq.
    - simpl. by rewrite dict_get_set_ne. }
  destruct (eq_str "implement_task" ty) eqn:E2.
  { unfold bind.
    destruct (find_item (JObj d) (tasks_open_items st) tr)
      as [[[it|]|ex] t1] eqn:F; unfold ret; try congruence.
    intros [= <- <-]. eapply Hres; [done|exact F|..].
    - intros k Hk1 Hk2. by rewrite !dict_get_set_ne.
    - rewrite dict_get_set_ne by done. apply dict_get_set_eq.
    - simpl. apply dict_get_set_eq. }
  destruct (eq_str "decompose_epic" ty) eqn:E3.
  { unfold bind.
    destruct (find_item (JObj d) (epics_items st) tr)
      as [[[it|]|ex] t1] eqn:F; unfold ret; try congruence.
    intros [= <- <-]. eapply Hres; [done|exact F|..].
    - intros k Hk1 Hk2. by rewrite !dict_get_set_ne.
    - rewrite dict_get_set_ne by done. apply dict_get_set_eq.
    - simpl. apply dict_get_set_eq. }
  destruct (eq_str "monitor_task" ty) eqn:E4.
  { unfold bind.
    destruct (find_item (JObj d) (tasks_processing_items st) tr)
      as [[[it|]|ex] t1] eqn:F; unfold ret; try congruence.
    intros [= <- <-]. eapply Hres; [done|exact F|..].
    - intros k Hk1 Hk2. by rewrite dict_get_set_ne.
    - apply dict_get_set_eq.
    - simpl. by rewrite dict_get_set_ne. }
  unfold ret. congruence.
Qed.

Lemma enrich_loop_order st actions acc tr out tr' :
  enrich_loop st actions acc tr = (Ok out, tr') →
  ∃ kept new,
    out = acc ++ new ∧ kept `sublist_of` actions ∧
    Forall2 (enriches st) kept new.
Proof.
  revert acc tr. induction actions as [|action rest IH]; intros acc tr; simpl.
  - unfold ret. intros [= <- <-]. exists [], []. rewrite app_nil_r.
    repeat split; constructor.
  - unfold bind at 1.
    destruct (enrich_action action st tr) as [[[e|]|ex] t1] eqn:E; [| |done].
    + pose proof (enrich_action_enriches _ _ _ _ _ E) as He.
      unfold bind.
      destruct (can_process_action e t1) as [[[]|ex] t2]; [| |done].
      * intros (kept & new & -> & Hsub & Hall)%IH.
        exists (action :: kept), (e :: new). rewrite <- app_assoc.
        repeat split; [by apply sublist_skip|by constructor].
      * intros (kept & new & -> & Hsub & Hall)%IH.
        exists kept, new. repeat split; [by apply sublist_cons|done].
    + intros (kept & new & -> & Hsub & Hall)%IH.
      exists kept, new. repeat split; [by apply sublist_cons|done].
Qed.

(** X6. When the oracle's decision holds a list of actions and the [try]
    block does not raise, the returned actions are the enriched forms of a
    subsequence of the proposals, in the order proposed: each keeps every
    field of its proposal but the title, taken from the designated item, and
    the body, taken from it for an implement or decompose action. *)
Theorem oracle_actions_in_proposed_order (kv : dict) (proposals : list json)
    (max_actions : Z) (st : State) (tr : Tracker) (out : list dict) :
  dict_get "actions" kv = Some (JArr proposals) →
  (consult_oracle (Parsed (JObj kv)) max_actions st tr).1 = Ok out →
  ∃ kept, kept `sublist_of` proposals ∧ Forall2 (enriches st) kept out.
Proof.
  intros Hk. unfold consult_oracle, bind, get_default. rewrite Hk. simpl.
  destruct (enrich_loop st (slice_to max_actions proposals) [] tr)
    as [res tr'] eqn:E.
  simpl. intros ->.
  apply enrich_loop_order in E as (kept & new & -> & Hsub & Hall).
  exists kept. split; [|done]. etrans; [exact Hsub|apply slice_to_sublist].
Qed.

Lemma oracle_actions_in_proposed_order_witness :
  ∃ kept, kept `sublist_of` epic_first_proposals ∧
          Forall2 (enriches (mkState [pr12] [] [] [epic5])) kept
            epic_first_actions.
Proof.
  apply (oracle_actions_in_proposed_order
           [("actions", JArr epic_first_proposals)] epic_first_proposals 3
           (mkState [pr12] [] [] [epic5]) ∅ epic_first_actions).
  - reflexivity.
  - vm_compute. reflexivity.
Defined.

(** The oracle's order is kept even against the tiers of the fallback. *)
Example oracle_order_example :
  (decide_actions (Some (Parsed epic_first_decision)) 3
     (mkState [pr12] [] [] [epic5]) ∅).1 = Ok epic_first_actions.
Proof. vm_compute. reflexivity. Qed.

Lemma fallback_length (K : nat) st tr acts tr' :
  simple_decision_logic (Z.of_nat K) st tr = (Ok acts, tr') →
  length acts ≤ K.
Proof.
  destruct (simple_decision_logic_spec (Z.of_nat K) st tr)
    as (ps & ts & es & t1 & Hrun & Hps & Hts & Hes & _).
  rewrite Hrun. intros [= <- <-].
  rewrite slice_to_nat in Hps.
  apply sublist_length in Hps. rewrite length_take in Hps.
  apply sublist_slice_length in Hts as [Lts _]; [|lia].
  apply sublist_slice_length in Hes as [Les _]; [|lia].
  rewrite !length_app, !length_fmap. lia.
Qed.

Lemma enrich_loop_length st actions acc tr out tr' :
  enrich_loop st actions acc tr = (Ok out, tr') →
  length out ≤ length acc + length actions.
Proof.
  intros (kept & new & -> & Hsub & Hall)%enrich_loop_order.
  apply sublist_length in Hsub. apply Forall2_length in Hall.
  rewrite length_app. lia.
Qed.

Lemma decide_actions_length (K : nat) (ollama : option oracle_reply)
    (st : State) (tr : Tracker) :
  ∃ acts tr',
    decide_actions ollama (Z.of_nat K) st tr = (Ok acts, tr') ∧
    length acts ≤ K.
Proof.
  destruct (decide_actions_spec ollama (Z.of_nat K) st tr)
    as (acts & tr' & keys & Hrun & _).
  exists acts, tr'. split; [done|].
  destruct ollama as [reply|]; simpl in Hrun;
    [|by eapply fallback_length].
  unfold try_except in Hrun.
  destruct (consult_oracle reply (Z.of_nat K) st tr) as [[out|ex] t1] eqn:E;
    [|by eapply fallback_length].
  injection Hrun as -> ->. revert E.
  unfold consult_oracle. destruct reply as [| |decision]; [done|done|].
  unfold bind, get_default. destruct decision; unfold raise; try done.
  unfold ret at 1 2. unfold py_len, sliced_elements.
  destruct (default (JArr []) (dict_get "actions" kv));
    unfold raise, ret; try done.
  - intros H%enrich_loop_length. rewrite length_fmap, slice_to_nat,
      length_take in H. simpl in H. lia.
  - intros H%enrich_loop_length. rewrite slice_to_nat, length_take in H.
    simpl in H. lia.
Qed.

(** X7. Whatever the oracle does, [_decide_actions] returns at most [K]
    actions. *)
Theorem decide_actions_bounded (K : nat) (ollama : option oracle_reply)
    (st : State) (tr : Tracker) :
  ∃ acts tr',
    decide_actions ollama (Z.of_nat K) st tr = (Ok acts, tr') ∧
    length acts ≤ K.
Proof. apply decide_actions_length. Qed.

(** X8. A decision that is a dict without an ["actions"] entry is not a
    failure: [_decide_actions] returns no action and leaves the tracker as
    it was, and the fallback is not run, whatever the state holds. *)
Theorem decision_without_actions (kv : dict) (max_actions : Z) (st : State)
    (tr : Tracker) :
  dict_get "actions" kv = None →
  decide_actions (Some (Parsed (JObj kv))) max_actions st tr = (Ok [], tr).
Proof.
  intros Hk. unfold decide_actions, try_except, consult_oracle, bind,
    get_default. rewrite Hk. simpl.
  assert (slice_to max_actions (@nil json) = []) as ->; [|done].
  unfold slice_to. case_match; apply take_nil.
Qed.

Lemma decision_without_actions_witness :
  decide_actions (Some (Parsed (JObj [("reasoning", JStr "all quiet")]))) 3
    state_one_pr ∅ = (Ok [], ∅).
Proof.
  apply (decision_without_actions [("reasoning", JStr "all quiet")]).
  reflexivity.
Defined.

(** X9. When the oracle call raises, its answer is not JSON, the decision
    is not a dict, or its actions are neither a list nor a string,
    [_decide_actions] behaves as the fallback run on the same tracker. *)
Theorem early_failure_is_plain_fallback (reply : oracle_reply)
    (max_actions : Z) (st : State) (tr : Tracker) :
  rejected_early reply = true →
  decide_actions (Some reply) max_actions st tr
  = simple_decision_logic max_actions st tr.
Proof.
  unfold decide_actions, try_except, consult_oracle.
  destruct reply as [| |decision]; [done|done|].
  destruct decision as [| | | | |kv]; try done. simpl.
  unfold bind, get_default, ret at 1 2.
  destruct (default (JArr []) (dict_get "actions" kv)); try done.
Qed.

Lemma early_failure_is_plain_fallback_witness :
  decide_actions (Some (Parsed (JObj [("actions", JNull)]))) 3 state_one_pr ∅
  = simple_decision_logic 3 state_one_pr ∅.
Proof.
  apply (early_failure_is_plain_fallback (Parsed (JObj [("actions", JNull)]))).
  reflexivity.
Defined.

(** ** More on the retry loop *)

(** X10. When attempt [k] is the first to return code 0 with an output
    that [json.loads] decodes or rejects as not being JSON (or with an
    empty output), the attempts before it having failed without timing out,
    [_run_claude_command] returns the dict with status ["success"], that
    output and [k + 1] as its attempt, and the successful call is the last
    event: no sleep and no call follow. *)
Theorem first_success_ends_loop (n k : nat) (delay timeout : Z)
    (timeout_arg : option Z) (exec : Z → attempt_outcome)
    (elapsed : Z) (stdout : string) (parsed : loads_outcome)
    (stderr : string) (output : json) :
  k < n →
  exec (Z.of_nat k) = Completed elapsed 0 stdout parsed stderr →
  parse_output stdout parsed = inl output →
  (∀ j, j < k → is_transient (exec (Z.of_nat j)) = true) →
  run_claude_command (mkAgent timeout (Z.of_nat n) delay) timeout_arg exec
  = ([("status", JStr "success"); ("output", output);
      ("attempt", JInt (Z.of_nat k + 1))],
     retried_trace (mkAgent timeout (Z.of_nat n) delay) exec
       (py_range (Z.of_nat k))
     ++ [RunClaude (Z.of_nat k) elapsed]).
Proof.
  intros Hk Hok Hout Hall. unfold run_claude_command. simpl.
  rewrite (py_range_split n k) by lia.
  rewrite attempts_loop_retries by by apply retried_prefix.
  destruct (n - k) as [|m] eqn:Hm; [lia|].
  simpl. by rewrite Hok, Hout.
Qed.

Lemma first_success_ends_loop_witness :
  run_claude_command claude None fails_then_succeeds
  = ([("status", JStr "success");
      ("output", JObj [("raw_output", JStr "done")]); ("attempt", JInt 2)],
     [RunClaude 0 20; Sleep 30; RunClaude 1 35]).
Proof.
  apply (first_success_ends_loop 2 1 30 600 None fails_then_succeeds
           35 "done" DecodeError "").
  - lia.
  - reflexivity.
  - reflexivity.
  - intros j Hj. assert (j = 0) as -> by lia. reflexivity.
Defined.

(** X23. A return code 0 does not make a success when [json.loads] raises
    an exception other than [JSONDecodeError] on the output: the attempt
    counts as failed, and when it is the last configured one, the attempts
    before it having failed without timing out, [_run_claude_command]
    returns the dict with status ["failed"], the message of the exception
    and the [n] attempts. *)
Theorem decoding_exception_is_failure (n k : nat) (delay timeout : Z)
    (timeout_arg : option Z) (exec : Z → attempt_outcome)
    (elapsed returncode : Z) (stdout : string) (parsed : loads_outcome)
    (stderr message : string) :
  S k = n →
  exec (Z.of_nat k) = Completed elapsed returncode stdout parsed stderr →
  parse_output stdout parsed = inr message →
  (∀ j, j < k → is_transient (exec (Z.of_nat j)) = true) →
  is_transient (exec (Z.of_nat k)) = true ∧
  run_claude_command (mkAgent timeout (Z.of_nat n) delay) timeout_arg exec
  = ([("status", JStr "failed"); ("error", JStr message);
      ("attempts", JInt (Z.of_nat n))],
     retried_trace (mkAgent timeout (Z.of_nat n) delay) exec
       (py_range (Z.of_nat k))
     ++ [RunClaude (Z.of_nat k) elapsed]).
Proof.
  intros Hn Hk Hout Hall. split.
  { rewrite Hk. simpl. by rewrite Hout. }
  unfold run_claude_command. simpl.
  rewrite (py_range_split n k) by lia.
  rewrite attempts_loop_retries by (apply retried_prefix; [lia|done]).
  assert (n - k = 1) as -> by lia.
  cbn [seq fmap list_fmap attempts_loop app]. rewrite Hk, Hout.
  destruct (Z.ltb_spec (Z.of_nat k)
              (retry_attempts (mkAgent timeout (Z.of_nat n) delay) - 1))
    as [Hlt|_]; [simpl in Hlt; lia|done].
Qed.

Lemma decoding_exception_is_failure_witness :
  is_transient (decoding_raises 1) = true ∧
  run_claude_command claude None decoding_raises
  = ([("status", JStr "failed");
      ("error", JStr "maximum recursion depth exceeded");
      ("attempts", JInt 2)],
     [RunClaude 0 20; Sleep 30; RunClaude 1 20]).
Proof.
  apply (decoding_exception_is_failure 2 1 30 600 None decoding_raises
           20 0 "[[[[" (LoadsRaises "maximum recursion depth exceeded") ""
           "maximum recursion depth exceeded").
  - reflexivity.
  - reflexivity.
  - reflexivity.
  - intros j Hj. assert (j = 0) as -> by lia. reflexivity.
Defined.

Lemma elapsed_time_app t1 t2 :
  elapsed_time (t1 ++ t2) = (elapsed_time t1 + elapsed_time t2)%Z.
Proof.
  unfold elapsed_time. induction t1 as [|e t1 IH]; simpl; [done|].
  rewrite IH. lia.
Qed.

Section TimeBound.

(** An agent whose attempts stay within the timeout in force. *)
Variables (self : ClaudeAgent) (timeout : Z) (exec : Z → attempt_outcome).
Hypothesis delay_nonneg : (0 ≤ retry_delay self)%Z.
Hypothesis timeout_nonneg : (0 ≤ timeout)%Z.
Hypothesis exec_within : ∀ j, within timeout (exec j).

Lemma attempts_loop_time (a m : nat) trace :
  retry_attempts self = Z.of_nat (a + m) →
  (elapsed_time trace
   ≤ elapsed_time
       (attempts_loop self timeout exec (Z.of_nat <$> seq a m) trace).2
   ≤ elapsed_time trace + Z.of_nat m * timeout
     + Z.of_nat (m - 1) * retry_delay self)%Z.
Proof using delay_nonneg timeout_nonneg exec_within.
  revert a trace. induction m as [|m IH]; intros a trace Hn.
  - simpl. lia.
  - cbn [seq fmap list_fmap attempts_loop].
    pose proof (exec_within (Z.of_nat a)) as Hw.
    replace (S m - 1) with m by lia. rewrite Nat2Z.inj_succ.
    assert (Hm0 : (0 ≤ Z.of_nat m * timeout)%Z) by nia.
    assert (Hd0 : (0 ≤ Z.of_nat m * retry_delay self)%Z) by nia.
    assert (Hone : ∀ t e, elapsed_time (t ++ [e])
                          = (elapsed_time t + seconds_of e)%Z).
    { intros t e. rewrite elapsed_time_app. unfold elapsed_time at 2.
      simpl. lia. }
    assert (Hnext : ∀ el,
      (0 ≤ el ≤ timeout)%Z →
      (Z.of_nat a < retry_attempts self - 1)%Z →
      (elapsed_time trace
       ≤ elapsed_time
           (attempts_loop self timeout exec (Z.of_nat <$> seq (S a) m)
              ((trace ++ [RunClaude (Z.of_nat a) el])
               ++ [Sleep (retry_delay self)])).2
       ≤ elapsed_time trace + Z.succ (Z.of_nat m) * timeout
         + Z.of_nat m * retry_delay self)%Z).
    { intros el Hel Hlt.
      assert (Hm1 : (Z.of_nat (m - 1) = Z.of_nat m - 1)%Z) by lia.
      destruct (IH (S a) ((trace ++ [RunClaude (Z.of_nat a) el])
                          ++ [Sleep (retry_delay self)])) as [Hlo Hhi].
      { rewrite Hn. f_equal. lia. }
      rewrite Hm1 in Hhi. rewrite !Hone in Hlo, Hhi. simpl in Hlo, Hhi.
      lia. }
    destruct (exec (Z.of_nat a)) as [el rc out parsed err| |el msg];
      simpl in Hw.
    + destruct (parse_output out parsed) as [output|message].
      * destruct (rc =? 0)%Z.
        { cbn [snd]. rewrite Hone. simpl. lia. }
        destruct (Z.ltb_spec (Z.of_nat a) (retry_attempts self - 1))
          as [Hlt|_].
        -- by apply Hnext.
        -- cbn [snd]. rewrite Hone. simpl. lia.
      * destruct (Z.ltb_spec (Z.of_nat a) (retry_attempts self - 1))
          as [Hlt|_].
        -- by apply Hnext.
        -- cbn [snd]. rewrite Hone. simpl. lia.
    + cbn [snd]. rewrite Hone. simpl. lia.
    + destruct (Z.ltb_spec (Z.of_nat a) (retry_attempts self - 1)) as [Hlt|_].
      * by apply Hnext.
      * cbn [snd]. rewrite Hone. simpl. lia.
Qed.

End TimeBound.

(** X11. When no attempt outlasts the timeout in force and the delay is
    not negative, a run of [_run_claude_command] with [n] attempts allowed
    takes at most [n] timeouts and [n - 1] delays. *)
Theorem run_claude_command_time (n : nat) (delay timeout : Z)
    (timeout_arg : option Z) (exec : Z → attempt_outcome) :
  (0 ≤ delay)%Z → (0 ≤ default timeout timeout_arg)%Z →
  (∀ j, within (default timeout timeout_arg) (exec j)) →
  (0 ≤ elapsed_time
         (run_claude_command (mkAgent timeout (Z.of_nat n) delay)
            timeout_arg exec).2
   ≤ Z.of_nat n * default timeout timeout_arg + Z.of_nat (n - 1) * delay)%Z.
Proof.
  intros Hd Ht Hw. unfold run_claude_command. cbn [retry_attempts].
  rewrite py_range_nat.
  pose proof (attempts_loop_time (mkAgent timeout (Z.of_nat n) delay)
                (default timeout timeout_arg) exec Hd Ht Hw 0 n []
                eq_refl) as H.
  simpl in H. exact H.
Qed.

Lemma run_claude_command_time_witness :
  (0 ≤ elapsed_time (run_claude_command claude None always_fails).2
   ≤ 2 * 600 + 1 * 30)%Z.
Proof.
  apply (run_claude_command_time 2 30 600 None always_fails).
  - lia.
  - simpl. lia.
  - intros j. unfold always_fails. destruct (j =? 0)%Z; simpl; lia.
Defined.

(** ** Dispatch of an action by the agent *)

(** X12. For an implement action, [execute_task] returns the result of the
    command unchanged; the processing label is added before the first
    attempt, and after the last one the review label is added on success
    and the processing label removed on any failure.  The label calls are
    not attempts: the count recorded in the result is the number of calls of
    the command. *)
Theorem implement_task_labels (n : nat) (delay timeout : Z)
    (exec : Z → attempt_outcome) (action : dict) (repo number : json) :
  dict_get "type" action = Some (JStr "implement_task") →
  dict_get "repo" action = Some repo →
  dict_get "number" action = Some number →
  ∃ result core,
    run_claude_command (mkAgent timeout (Z.of_nat n) delay) None exec
    = (result, core) ∧
    execute_task (mkAgent timeout (Z.of_nat n) delay) exec action
    = Some (result,
            [AddLabel "processing"] ++ core ++ [closing_label result]) ∧
    recorded_attempts result
    = Some (Z.of_nat (runs ([AddLabel "processing"] ++ core
                           ++ [closing_label result]))).
Proof.
  intros Hty Hr Hn.
  pose proof (run_claude_command_count n delay timeout None exec) as Hc.
  unfold execute_task, implement_task. rewrite Hty, Hr, Hn. simpl.
  destruct (run_claude_command (mkAgent timeout (Z.of_nat n) delay) None exec)
    as [result core] eqn:E.
  exists result, core. split; [done|]. simpl in Hc. split.
  - unfold closing_label. by destruct (is_success result).
  - rewrite Hc. do 2 f_equal. unfold runs. simpl.
    rewrite List.filter_app, length_app. unfold closing_label.
    destruct (is_success result); simpl; lia.
Qed.

Lemma implement_task_labels_witness :
  ∃ result core,
    run_claude_command claude None fails_then_times_out = (result, core) ∧
    execute_task claude fails_then_times_out (implement_task_action task55)
    = Some (result,
            [AddLabel "processing"] ++ core ++ [closing_label result]) ∧
    recorded_attempts result
    = Some (Z.of_nat (runs ([AddLabel "processing"] ++ core
                           ++ [closing_label result]))).
Proof.
  apply (implement_task_labels 2 30 600 fails_then_times_out
           (implement_task_action task55) (JStr "webapp") (JInt 55));
    reflexivity.
Defined.

(** A timed-out implementation gives the processing label back. *)
Example implement_task_timeout_example :
  execute_task claude (λ _, TimeoutExpired) (implement_task_action task55)
  = Some (timeout_result 600 0,
          [AddLabel "processing"; RunClaude 0 600; RemoveLabel "processing"]).
Proof. reflexivity. Qed.

(** X13. For an action whose type is a string other than the four known
    ones, [execute_task] neither calls the command nor touches a label, and
    the failed result it returns records no attempt count. *)
Theorem unknown_type_not_executed (self : ClaudeAgent)
    (exec : Z → attempt_outcome) (action : dict) (action_type : string)
    (repo number : json) :
  dict_get "type" action = Some (JStr action_type) →
  dict_get "repo" action = Some repo →
  dict_get "number" action = Some number →
  known_type action_type = false →
  ∃ result,
    execute_task self exec action = Some (result, []) ∧
    dict_get "error" result
    = Some (JStr ("Unknown action type: " ++ action_type)) ∧
    is_success result = false ∧ recorded_attempts result = None.
Proof.
  intros Hty Hr Hn Hk. unfold known_type in Hk.
  apply orb_false_elim in Hk as [Hk H4]. apply orb_false_elim in Hk as [Hk H3].
  apply orb_false_elim in Hk as [H1 H2].
  eexists. split.
  { unfold execute_task, eq_str. rewrite Hty, Hr, Hn.
    by rewrite (String.eqb_sym "review_pr"), H1,
      (String.eqb_sym "implement_task"), H2,
      (String.eqb_sym "decompose_epic"), H3,
      (String.eqb_sym "monitor_task"), H4. }
  done.
Qed.

Lemma unknown_type_not_executed_witness :
  ∃ result,
    execute_task claude always_fails
      [("type", JStr "close_issue"); ("repo", JStr "webapp");
       ("number", JInt 7)] = Some (result, []) ∧
    dict_get "error" result = Some (JStr "Unknown action type: close_issue") ∧
    is_success result = false ∧ recorded_attempts result = None.
Proof.
  apply (unknown_type_not_executed claude always_fails _ "close_issue"
           (JStr "webapp") (JInt 7)); reflexivity.
Defined.



(** ** More on the task executor *)

Lemma length_omap_le {A B : Type} (f : A → option B) (l : list A) :
  length (omap f l) ≤ length l.
Proof.
  induction l as [|x l IH]; csimpl; [done|]. destruct (f x); csimpl; lia.
Qed.

Lemma appended_carries_action self exec action r :
  appended (execute_with_result self exec action) = Some r →
  dict_get "action" r = Some (JObj action).
Proof.
  unfold execute_with_result.
  destruct (execute_task self exec action) as [[result trace]|]; simpl;
    [|done].
  intros [= <-]. apply dict_get_set_eq.
Qed.

(** X14. At any time the returned list holds no more results than there
    were dispatched actions, and each result in it carries, under
    ["action"], the action it answers. *)
Theorem returned_results_carry_actions (self : ClaudeAgent)
    (action_timeout : Z) (execs : nat → Z → attempt_outcome)
    (actions : list dict) (t : Z) :
  length (returned_list_at
            (execute_actions self action_timeout execs actions) t)
  ≤ length actions ∧
  Forall (λ r, ∃ i action, actions !! i = Some action ∧
                           dict_get "action" r = Some (JObj action))
    (returned_list_at (execute_actions self action_timeout execs actions) t).
Proof.
  unfold returned_list_at, execute_actions, results_at. cbn [threads]. split.
  - etrans; [apply length_omap_le|].
    etrans; [apply List.filter_length_le|].
    by rewrite completion_order_perm, length_imap.
  - apply Forall_forall. intros r (th & Hth & Hr)%list_elem_of_omap.
    apply list_elem_of_In, List.filter_In in Hth as [Hth _].
    apply list_elem_of_In in Hth. rewrite completion_order_perm in Hth.
    apply elem_of_lookup_imap in Hth as (i & action & -> & Hi).
    exists i, action. split; [done|]. by eapply appended_carries_action.
Qed.







(** ** The GitHub client *)

Lemma elem_of_flat_map {A B : Type} (f : A → list B) (l : list A) (y : B) :
  y ∈ flat_map f l ↔ ∃ x, x ∈ l ∧ y ∈ f x.
Proof.
  rewrite list_elem_of_In, in_flat_map. split; intros (x & H1 & H2); exists x.
  - by rewrite !list_elem_of_In.
  - by rewrite <- !list_elem_of_In.
Qed.

Lemma elem_of_list_prs_from answer x :
  x ∈ list_prs_from answer ↔
  ∃ repo prs pr, repo ∈ repos ∧ answer repo = Some prs ∧ pr ∈ prs ∧
                 x = pr_item repo pr.
Proof.
  unfold list_prs_from. rewrite elem_of_flat_map. split.
  - intros (repo & Hrepo & Hx). destruct (answer repo) as [prs|] eqn:E.
    + apply list_elem_of_fmap in Hx as (pr & -> & Hpr). by exists repo, prs, pr.
    + by apply elem_of_nil in Hx.
  - intros (repo & prs & pr & Hrepo & E & Hpr & ->). exists repo.
    split; [done|]. rewrite E. apply list_elem_of_fmap. by exists pr.
Qed.

Lemma elem_of_list_issues labels answer x :
  x ∈ list_issues labels answer ↔
  ∃ repo issues issue,
    repo ∈ repos ∧ answer repo = Some issues ∧ issue ∈ issues ∧
    (labels = [] ∨ keep_issue labels issue = true) ∧
    x = issue_item repo issue.
Proof.
  unfold list_issues. rewrite elem_of_flat_map. split.
  - intros (repo & Hrepo & Hx). destruct (answer repo) as [issues|] eqn:E;
      [|by apply elem_of_nil in Hx].
    apply list_elem_of_fmap in Hx as (issue & -> & Hi).
    exists repo, issues, issue. destruct labels as [|f fs].
    + repeat split; try done. by left.
    + apply list_elem_of_In, List.filter_In in Hi as [Hi Hk].
      repeat split; try done; [by apply list_elem_of_In|by right].
  - intros (repo & issues & issue & Hrepo & E & Hi & Hk & ->). exists repo.
    split; [done|]. rewrite E. apply list_elem_of_fmap. exists issue.
    split; [done|]. destruct labels as [|f fs]; [done|].
    destruct Hk as [Hk|Hk]; [done|].
    apply list_elem_of_In, List.filter_In. split; [by apply list_elem_of_In|done].
Qed.

Lemma existsb_eqb_elem_of (s : string) (l : list string) :
  existsb (String.eqb s) l = true ↔ s ∈ l.
Proof.
  rewrite existsb_exists. split.
  - intros (x & Hx & ->%String.eqb_eq). by apply list_elem_of_In.
  - intros H. exists s. split; [by apply list_elem_of_In|apply String.eqb_refl].
Qed.

Lemma keep_agent_issue issue :
  keep_issue ["agent:*"] issue = true ↔ has_agent_label issue.
Proof.
  unfold keep_issue, has_agent_label.
  change (existsb (λ f, label_matches f (gh_labels issue)) ["agent:*"%string])
    with (existsb (String.prefix "agent:") (gh_labels issue) || false).
  rewrite orb_false_r, existsb_exists. split.
  - intros (l & Hl & [suf Hs]%prefix_occurs). exists l, suf.
    split; [by apply list_elem_of_In|done].
  - intros (l & suf & Hl & Hs). exists l. split; [by apply list_elem_of_In|].
    apply prefix_occurs. by exists suf.
Qed.

Lemma keep_epic_issue issue :
  keep_issue ["type:epic"] issue = true ↔ "type:epic"%string ∈ gh_labels issue.
Proof.
  unfold keep_issue.
  change (existsb (λ f, label_matches f (gh_labels issue)) ["type:epic"%string])
    with (existsb (String.eqb "type:epic") (gh_labels issue) || false).
  by rewrite orb_false_r, existsb_eqb_elem_of.
Qed.

(** X16. A task of the client is an issue that [gh] listed for a tracked
    repository, with a label starting with [agent:] and without the label
    [type:epic], completed with that repository and its flags. *)
Theorem tasks_are_agent_issues (prs_answer agent_answer epic_answer : gh_answer)
    (x : Item) :
  x ∈ get_tasks (github_store prs_answer agent_answer epic_answer) ↔
  ∃ repo issues issue,
    repo ∈ repos ∧ agent_answer repo = Some issues ∧ issue ∈ issues ∧
    has_agent_label issue ∧ ("type:epic"%string ∉ gh_labels issue) ∧
    x = issue_item repo issue.
Proof.
  unfold get_tasks, github_store. cbn [agent_issues].
  rewrite list_elem_of_filter, elem_of_list_issues. split.
  - intros (Hflag & repo & issues & issue & Hrepo & E & Hi & [?|Hk] & ->);
      [done|].
    exists repo, issues, issue. repeat split; try done.
    + by apply keep_agent_issue.
    + intros Hin%existsb_eqb_elem_of.
      change (it_has_epic_label (issue_item repo issue))
        with (existsb (String.eqb "type:epic") (gh_labels issue)) in Hflag.
      congruence.
  - intros (repo & issues & issue & Hrepo & E & Hi & Ha & He & ->). split.
    + change (it_has_epic_label (issue_item repo issue))
        with (existsb (String.eqb "type:epic") (gh_labels issue)).
      destruct (existsb _ _) eqn:Hx; [|done].
      by apply existsb_eqb_elem_of in Hx.
    + exists repo, issues, issue. repeat split; try done.
      right. by apply keep_agent_issue.
Qed.

(** X17. Every epic of the client carries the epic flag, and no epic is
    among the tasks. *)
Theorem epics_are_not_tasks (prs_answer agent_answer epic_answer : gh_answer) :
  Forall (λ x, it_has_epic_label x = true ∧
               x ∉ get_tasks (github_store prs_answer agent_answer epic_answer))
    (get_epics (github_store prs_answer agent_answer epic_answer)).
Proof.
  apply Forall_forall. intros x Hx.
  unfold get_epics, github_store in Hx. cbn [epic_issues] in Hx.
  apply elem_of_list_issues
    in Hx as (repo & issues & issue & _ & _ & _ & [?|Hk] & ->); [done|].
  apply keep_epic_issue, existsb_eqb_elem_of in Hk.
  assert (Hflag : it_has_epic_label (issue_item repo issue) = true) by done.
  split; [done|]. unfold get_tasks.
  rewrite list_elem_of_filter. intros [Hf _]. congruence.
Qed.

Example get_tasks_example :
  get_tasks (github_store (λ _, None) sample_issues sample_issues)
  = [mkItem "webapp" 60 "Task" "see #9" false false] ∧
  get_epics (github_store (λ _, None) sample_issues sample_issues)
  = [mkItem "webapp" 9 "Epic" "" true false].
Proof. split; reflexivity. Qed.

Lemma scan_items_from_store floor gh it :
  it ∈ prs_items (scan_github_state floor gh) ∨
  it ∈ tasks_open_items (scan_github_state floor gh) ∨
  it ∈ tasks_processing_items (scan_github_state floor gh) ∨
  it ∈ epics_items (scan_github_state floor gh) →
  it ∈ open_prs gh ∨ it ∈ agent_issues gh ∨ it ∈ epic_issues gh.
Proof.
  intros [H|[H|[H|H]]].
  - left. unfold scan_github_state in H.
    by destruct (split_tasks _ _ _ _).
  - right; left.
    destruct (scan_tasks_above_floor floor gh it (or_introl H)) as [Ht _].
    unfold get_tasks in Ht. by apply list_elem_of_filter in Ht as [_ ?].
  - right; left.
    destruct (scan_tasks_above_floor floor gh it (or_intror H)) as [Ht _].
    unfold get_tasks in Ht. by apply list_elem_of_filter in Ht as [_ ?].
  - right; right. unfold scan_github_state in H.
    destruct (split_tasks _ _ _ _). simpl in H.
    rewrite taskless_epics_filter in H. simpl in H.
    by apply list_elem_of_filter in H as [_ ?].
Qed.

Lemma resolved_item st a :
  resolved st a →
  ∃ it, (it ∈ prs_items st ∨ it ∈ tasks_open_items st ∨
         it ∈ tasks_processing_items st ∨ it ∈ epics_items st) ∧
        dict_get "repo" a = Some (JStr (it_repo it)).
Proof.
  intros (ty & repo & number & Hty & Hr & Hn & Hres).
  unfold resolvable in Hres.
  destruct (collection st ty) as [items|] eqn:Hc; [|done].
  apply existsb_exists in Hres as (it & Hin%list_elem_of_In & Ht).
  unfold targets in Ht. apply andb_prop in Ht as [Hrepo _].
  apply eq_str_true in Hrepo as ->. exists it. split; [|done].
  unfold collection in Hc. repeat case_match; simplify_eq; auto.
Qed.

Lemma store_repos prs_answer agent_answer epic_answer it :
  it ∈ open_prs (github_store prs_answer agent_answer epic_answer) ∨
  it ∈ agent_issues (github_store prs_answer agent_answer epic_answer) ∨
  it ∈ epic_issues (github_store prs_answer agent_answer epic_answer) →
  it_repo it ∈ repos.
Proof.
  unfold github_store. cbn [open_prs agent_issues epic_issues].
  intros [H|[H|H]].
  - by apply elem_of_list_prs_from in H as (repo & ? & ? & ? & ? & ? & ->).
  - by apply elem_of_list_issues in H as (repo & ? & ? & ? & ? & ? & ? & ->).
  - by apply elem_of_list_issues in H as (repo & ? & ? & ? & ? & ? & ? & ->).
Qed.

(** X18. Whatever [gh] answers and whatever the oracle proposes, every
    action decided on the snapshot of the client's store carries one of the
    four tracked repositories. *)
Theorem actions_on_tracked_repos
    (prs_answer agent_answer epic_answer : gh_answer) (floor max_actions : Z)
    (ollama : option oracle_reply) (tr : Tracker) :
  ∃ acts tr',
    decide_actions ollama max_actions
      (scan_github_state floor
         (github_store prs_answer agent_answer epic_answer)) tr
    = (Ok acts, tr') ∧
    Forall (λ a, ∃ repo, repo ∈ repos ∧ dict_get "repo" a = Some (JStr repo))
      acts.
Proof.
  destruct (decide_actions_spec ollama max_actions
              (scan_github_state floor
                 (github_store prs_answer agent_answer epic_answer)) tr)
    as (acts & tr' & keys & Hrun & _ & _ & _ & Hall).
  exists acts, tr'. split; [done|].
  eapply Forall_impl; [exact Hall|]. intros a (it & Hin & Hrepo)%resolved_item.
  exists (it_repo it). split; [|done].
  eapply store_repos, scan_items_from_store, Hin.
Qed.

(** ** One cycle *)

Lemma run_cycle_decides floor max_actions action_timeout self gh ollama
    execs tr :
  ∃ acts tr',
    decide_actions ollama max_actions (scan_github_state floor gh) tr
    = (Ok acts, tr') ∧
    Forall (resolved (scan_github_state floor gh)) acts ∧
    run_cycle floor max_actions action_timeout self gh ollama execs tr
    = (Ok (match acts with
           | [] => Idle
           | _ => Ran (execute_actions self action_timeout execs acts)
           end), tr').
Proof.
  destruct (decide_actions_spec ollama max_actions
              (scan_github_state floor gh) tr)
    as (acts & tr' & keys & Hrun & _ & _ & _ & Hall).
  exists acts, tr'. split; [done|]. split; [done|].
  unfold run_cycle, bind. rewrite Hrun. by destruct acts.
Qed.


(** X20. With an empty snapshot the cycle ends idle, whatever the oracle
    answers: no worker is started. *)
Theorem empty_snapshot_is_idle (floor max_actions action_timeout : Z)
    (self : ClaudeAgent) (gh : GitHubStore) (ollama : option oracle_reply)
    (execs : nat → Z → attempt_outcome) (tr : Tracker) :
  scan_github_state floor gh = mkState [] [] [] [] →
  (run_cycle floor max_actions action_timeout self gh ollama execs tr).1
  = Ok Idle.
Proof.
  intros Hempty.
  destruct (run_cycle_decides floor max_actions action_timeout self gh
              ollama execs tr) as (acts & tr' & _ & Hall & ->).
  destruct acts as [|a acts]; [done|].
  apply Forall_cons in Hall as [Ha _].
  apply resolved_item in Ha as (it & Hin & _). rewrite Hempty in Hin.
  simpl in Hin. set_solver.
Qed.

Lemma empty_snapshot_is_idle_witness :
  (run_cycle 50 3 600 claude (mkStore [] [task3] [])
     (Some (Parsed epic_first_decision)) (λ _, always_fails) ∅).1
  = Ok Idle.
Proof.
  apply (empty_snapshot_is_idle 50 3 600 claude (mkStore [] [task3] [])).
  reflexivity.
Defined.

(** ** Edge cases *)

Lemma find_item_without_repo d items tr :
  dict_get "repo" d = None →
  find_item (JObj d) items tr
  = match items with
    | [] => (Ok None, tr)
    | _ => (Raised KeyError, tr)
    end.
Proof.
  intros Hr. destruct items as [|it rest]; [done|].
  simpl. unfold bind, subscript. by rewrite Hr.
Qed.

(** X22. For a proposal of a known type without a ["repo"] entry,
    [_enrich_action] returns [None] when the collection for its type is
    empty, since no item is compared, and raises [KeyError] as soon as the
    collection holds an item; the tracker is untouched either way. *)
Theorem enrich_action_without_repo (d : dict) (ty : json) (items : list Item)
    (st : State) (tr : Tracker) :
  dict_get "type" d = Some ty →
  collection st ty = Some items →
  dict_get "repo" d = None →
  enrich_action (JObj d) st tr
  = match items with
    | [] => (Ok None, tr)
    | _ => (Raised KeyError, tr)
    end.
Proof.
  intros Hty Hc Hr. unfold enrich_action, bind at 1, subscript.
  rewrite Hty. unfold ret at 1. unfold collection in Hc.
  destruct (eq_str "review_pr" ty);
    [|destruct (eq_str "implement_task" ty);
      [|destruct (eq_str "decompose_epic" ty);
        [|destruct (eq_str "monitor_task" ty); [|done]]]];
    injection Hc as Hc; rewrite Hc; unfold bind;
    rewrite find_item_without_repo by done; by destruct items.
Qed.

Lemma enrich_action_without_repo_witness :
  enrich_action (JObj [("type", JStr "review_pr")]) state_one_pr ∅
  = (Raised KeyError, ∅).
Proof.
  apply (enrich_action_without_repo [("type", JStr "review_pr")]
           (JStr "review_pr") [pr12] state_one_pr ∅); reflexivity.
Defined.

(** X21. A monitor action is run with a timeout of 120 seconds whatever
    timeout the agent is configured with: when its first attempt times out,
    [execute_task] returns, after one call of 120 seconds, the dict with
    status ["failed"], the error "Command timed out after 120 seconds" and
    1 attempt. *)
Theorem monitor_task_timeout (n : nat) (delay timeout : Z)
    (exec : Z → attempt_outcome) (action : dict) (repo number : json) :
  dict_get "type" action = Some (JStr "monitor_task") →
  dict_get "repo" action = Some repo →
  dict_get "number" action = Some number →
  0 < n →
  exec 0%Z = TimeoutExpired →
  execute_task (mkAgent timeout (Z.of_nat n) delay) exec action
  = Some ([("status", JStr "failed");
           ("error", JStr "Command timed out after 120 seconds");
           ("attempts", JInt 1)],
          [RunClaude 0 120]).
Proof.
  intros Hty Hr Hn Hpos Hto. unfold execute_task. rewrite Hty, Hr, Hn. simpl.
  unfold run_claude_command. cbn [retry_attempts]. rewrite py_range_nat.
  destruct n as [|m]; [lia|]. cbn [seq fmap list_fmap attempts_loop].
  change (Z.of_nat 0) with 0%Z. by rewrite Hto.
Qed.

Lemma monitor_task_timeout_witness :
  execute_task claude (λ _, TimeoutExpired)
    [("type", JStr "monitor_task"); ("repo", JStr "webapp");
     ("number", JInt 59); ("title", JStr "Test monitoring")]
  = Some ([("status", JStr "failed");
           ("error", JStr "Command timed out after 120 seconds");
           ("attempts", JInt 1)],
          [RunClaude 0 120]).
Proof.
  apply (monitor_task_timeout 2 30 600 (λ _, TimeoutExpired) _
           (JStr "webapp") (JInt 59)); (reflexivity || lia).
Defined.
